(** * uSTL output streams: [ostream] (mostream.h) and [ostringstream] (sostream.cc)

    A shallow embedding of the binary output cursor and of the text stream
    built on it, followed by the properties of the two that the design
    document states.

    Conventions of the embedding.
    - A [char] / [uint8_t] is an [ascii]; a block of memory is a [list char].
    - [size_t], [uoff_t] and [size_type] values are modelled as [nat].  The
      sizes of objects that exist in memory together add up within the range
      of the type; a count that a caller hands to [skip] is any value of the
      type, and the sum [skip] takes wraps around, see [size_t_add].
    - A member function is a computation over the object's state that ends
      in one of four ways, see [outcome]. *)

From Stdlib Require Import Ascii String DecimalString.
From Stdlib Require Import List Arith PeanoNat NArith ZArith Lia Bool.
Import ListNotations.
Local Open Scope list_scope.
Local Open Scope nat_scope.


(** ** Outcomes of a member function *)

Definition char := ascii.

(** The characters of a string literal. *)
Definition text (t : string) : list char := list_ascii_of_string t.

(** [stream_bounds_exception (operation, type, offset, expected, remaining)] *)
Inductive exn : Type :=
| stream_bounds_exception (op ty : string) (offset expected remains : nat).

(** How a call ends: it returns [a] in state [s]; it throws [e] and leaves the
    object in state [s]; an [assert] fails and the program aborts; or the
    bounded unrolling of a loop was too short (never the case for the loops
    below, as proved for each of them). *)
Inductive outcome (St A : Type) : Type :=
| Ok (a : A) (s : St)
| Throw (e : exn) (s : St)
| AssertFail
| OutOfFuel.

Arguments Ok {St A} a s.
Arguments Throw {St A} e s.
Arguments AssertFail {St A}.
Arguments OutOfFuel {St A}.

Definition M (St A : Type) : Type := St -> outcome St A.

Definition ret {St A} (a : A) : M St A := fun s => Ok a s.

Definition bind {St A B} (m : M St A) (k : A -> M St B) : M St B :=
  fun s =>
    match m s with
    | Ok a s' => k a s'
    | Throw e s' => Throw e s'
    | AssertFail => AssertFail
    | OutOfFuel => OutOfFuel
    end.

Definition get {St} : M St St := fun s => Ok s s.
Definition gets {St A} (f : St -> A) : M St A := fun s => Ok (f s) s.
Definition modify {St} (f : St -> St) : M St unit := fun s => Ok tt (f s).
Definition throw {St A} (e : exn) : M St A := fun s => Throw e s.
Definition assert {St} (b : bool) : M St unit :=
  fun s => if b then Ok tt s else AssertFail.

Declare Scope stream_scope.
Delimit Scope stream_scope with stream.
Notation "x <- m ;; k" := (bind m (fun x => k))
  (at level 61, m at next level, right associativity) : stream_scope.
Notation "m ;; k" := (bind m (fun _ => k))
  (at level 61, right associativity) : stream_scope.
Open Scope stream_scope.

(** Runs a computation of a sub-object inside the enclosing object. *)
Definition lift {St Sub A} (proj : St -> Sub) (inj : St -> Sub -> St)
  (m : M Sub A) : M St A :=
  fun s =>
    match m (proj s) with
    | Ok a o => Ok a (inj s o)
    | Throw e o => Throw e (inj s o)
    | AssertFail => AssertFail
    | OutOfFuel => OutOfFuel
    end.

(** ** Arithmetic of [size_t] *)

(** The sum of two values of [size_t]: it wraps around at the modulus of the
    type, SIZE_MAX + 1, which the platform fixes. *)
Definition size_t_add (modulus : N) (a b : nat) : nat :=
  N.to_nat ((N.of_nat a + N.of_nat b) mod modulus).

(** [a] is a value of [size_t]. *)
Definition in_size_t (modulus : N) (a : nat) : Prop :=
  (N.of_nat a < modulus)%N.

(** ** Memory blocks *)

(** [store d p v]: the block [d] after [v] has been copied to offset [p]. *)
Definition store (d : list char) (p : nat) (v : list char) : list char :=
  firstn p d ++ v ++ skipn (p + length v) d.

(** [load d p n]: the [n] bytes of [d] from offset [p] on. *)
Definition load (d : list char) (p n : nat) : list char :=
  firstn n (skipn p d).

(** ** mostream.h: class ostream *)

Module Mostream.

(** The [memlink] base ([m_Data] is the memory the link points at, [m_Size]
    the linked size) and the write position. The block may be longer than the
    linked size. *)
Record ostream : Type := mk_ostream {
  m_Data : list char;
  m_Size : nat;
  m_Pos : nat
}.

Definition set_pos (os : ostream) (p : nat) : ostream :=
  mk_ostream (m_Data os) (m_Size os) p.

Definition set_data (os : ostream) (d : list char) : ostream :=
  mk_ostream d (m_Size os) (m_Pos os).

Definition size (os : ostream) : nat := m_Size os.

(** Modelled from the spec: the constructor [ostream (void)] of mostream.cc
    is missing; the position starts at 0 and the view is empty. *)
Definition ostream_void : ostream := mk_ostream [] 0 0.

(** Modelled from the spec: [memlink::link] is missing; linking rebinds the
    view and does not alter the position. *)
Definition link (d : list char) (n : nat) : M ostream unit :=
  modify (fun os => mk_ostream d n (m_Pos os)).

(** [inline uoff_t ostream::pos (void) const] *)
Definition pos (os : ostream) : nat := m_Pos os.

(** [inline void ostream::seek (uoff_t newPos)] *)
Definition seek (newPos : nat) : M ostream unit :=
  os <- get ;;
  assert (newPos <=? size os) ;;
  modify (fun os => set_pos os newPos).

Section SizeT.

(** The modulus of [size_t], SIZE_MAX + 1. *)
Variable size_t_modulus : N.

(** [inline void ostream::skip (size_t nBytes)]: the sum is one of
    [size_t]. *)
Definition skip (nBytes : nat) : M ostream unit :=
  os <- get ;;
  seek (size_t_add size_t_modulus (pos os) nBytes).

(** [inline size_t ostream::remaining (void) const].  The subtraction is
    never taken with [pos () > size ()] where [seek]'s assertion holds. *)
Definition remaining (os : ostream) : nat := size os - pos os.

(** [inline bool ostream::aligned (size_t grain) const] *)
Definition aligned (grain : nat) (os : ostream) : bool :=
  pos os mod grain =? 0.

(** Modelled from the spec: the utility [Align] is missing; it gives the
    next multiple of [grain] at or after [n]. *)
Definition Align (n grain : nat) : nat := ((n + grain - 1) / grain) * grain.

(** [inline void ostream::align (size_t grain)] *)
Definition align (grain : nat) : M ostream unit :=
  os <- get ;;
  seek (Align (pos os) grain).

(** Copies [v] to [begin () + pos ()]. *)
Definition poke (v : list char) : M ostream unit :=
  modify (fun os => set_data os (store (m_Data os) (pos os) v)).

(** Modelled from the spec: [ostream::write (const void*, size_t)] of
    mostream.cc is missing; it fails when the bytes do not fit in
    [remaining ()], and otherwise copies them at the position and advances
    the position by their number. *)
Definition write (buffer : list char) : M ostream unit :=
  os <- get ;;
  assert (length buffer <=? remaining os) ;;
  poke buffer ;;
  modify (fun os => set_pos os (pos os + length buffer)).

Section Typed.

(** [c_DefaultAlignment] is declared outside mostream.h. *)
Variable c_DefaultAlignment : nat.

(** [template <typename T> inline void ostream::iwrite (const T& v)].  The
    value is given by its object representation [v], [sizeof (T)] bytes. *)
Definition iwrite (v : list char) : M ostream unit :=
  let sizeofT := length v in
  os <- get ;;
  assert (aligned (if sizeofT <? c_DefaultAlignment
                   then sizeofT else c_DefaultAlignment) os) ;;
  assert (sizeofT <=? remaining os) ;;
  poke v ;;
  skip sizeofT.

(** The operations that move the cursor, and sequences of them. *)
Inductive cursor_op : Type :=
| OpSeek (newPos : nat)
| OpSkip (nBytes : nat)
| OpAlign (grain : nat)
| OpWrite (buffer : list char)
| OpIwrite (v : list char).

Definition step (o : cursor_op) : M ostream unit :=
  match o with
  | OpSeek n => seek n
  | OpSkip n => skip n
  | OpAlign g => align g
  | OpWrite b => write b
  | OpIwrite v => iwrite v
  end.

Fixpoint run (ops : list cursor_op) : M ostream unit :=
  match ops with
  | [] => ret tt
  | o :: rest => step o ;; run rest
  end.

End Typed.

End SizeT.

(** The view lies inside its block and the position inside the view. *)
Definition wf (os : ostream) : Prop :=
  m_Pos os <= m_Size os /\ m_Size os <= length (m_Data os).

(** Object representation of a [w]-byte integer, least significant byte
    first or last. *)
Inductive endianness : Type := LittleEndian | BigEndian.

Fixpoint le_bytes (w : nat) (v : N) : list char :=
  match w with
  | O => []
  | S w' => ascii_of_N (v mod 256) :: le_bytes w' (v / 256)
  end.

Definition int_repr (e : endianness) (w : nat) (v : Z) : list char :=
  let u := Z.to_N (v mod 2 ^ (8 * Z.of_nat w)) in
  match e with
  | LittleEndian => le_bytes w u
  | BigEndian => rev (le_bytes w u)
  end.

End Mostream.

(** ** sostream.cc: class ostringstream *)

Module Sostream.

Definition zero : char := "000"%char.

(** *** The buffer [m_Buffer] *)

(** Modelled from the spec: the class of [m_Buffer] (string, a memblock) is
    missing.  It is a byte range that is either owned and resizable or linked
    to external memory and not resizable, with the operations [link],
    [reserve], [resize], [begin] and [size].  [mb_Data] is the whole block the
    buffer has (its length is the capacity), [mb_Size] the declared size and
    [mb_Linked] tells external memory. *)
Record memblock : Type := mk_memblock {
  mb_Data : list char;
  mb_Size : nat;
  mb_Linked : bool
}.

(** Modelled from the spec: a buffer with a copy of [v] as its content. *)
Definition memblock_of_string (v : list char) : memblock :=
  mk_memblock v (length v) false.

(** Modelled from the spec: [link (pointer, length)] binds the buffer to
    external memory, which it does not own. *)
Definition memblock_link (p : list char) (n : nat) : memblock :=
  mk_memblock p n true.

(** Modelled from the spec: [reserve (new_capacity, flag)] enlarges the
    capacity of an owned buffer, keeping its content, as the overflow
    protocol is described; external memory is not resizable.  The bytes
    gained have no specified value (here zero), and [flag], the second
    argument of the call, has no part in what is modelled. *)
Definition reserve (newSize : nat) (flag : bool) (b : memblock) : memblock :=
  if mb_Linked b || (newSize <=? length (mb_Data b)) then b
  else mk_memblock (mb_Data b ++ repeat zero (newSize - length (mb_Data b)))
                   (mb_Size b) (mb_Linked b).

(** Modelled from the spec: [resize (new_length)] sets the declared size,
    reserving first; a size the block cannot have leaves the buffer as it
    is. *)
Definition resize (n : nat) (b : memblock) : memblock :=
  let b' := reserve n true b in
  if n <=? length (mb_Data b') then mk_memblock (mb_Data b') n (mb_Linked b')
  else b'.

(** Modelled from the spec: assignment of a string to the buffer: the buffer
    takes the size of [s] and its bytes. *)
Definition assign (s : list char) (b : memblock) : memblock :=
  let b' := resize (length s) b in
  mk_memblock (store (mb_Data b') 0 (firstn (mb_Size b') s))
              (mb_Size b') (mb_Linked b').

(** The content of the buffer: the first [size ()] bytes of its block. *)
Definition content (b : memblock) : list char := firstn (mb_Size b) (mb_Data b).

(** *** The stream *)

(** The [ostream] base is a view of the block of [m_Buffer]: the block is kept
    once, in [m_Buffer], and the base keeps its linked size [v_Size] and its
    position [v_Pos]. *)
Record ostringstream : Type := mk_ostringstream {
  m_Buffer : memblock;
  v_Size : nat;
  v_Pos : nat;
  m_Flags : N;
  m_Base : N;
  m_Precision : N;
  m_Width : N;
  m_DecimalSeparator : char;
  m_ThousandSeparator : char
}.

Definition set_buffer (s : ostringstream) (b : memblock) : ostringstream :=
  mk_ostringstream b (v_Size s) (v_Pos s) (m_Flags s) (m_Base s)
    (m_Precision s) (m_Width s) (m_DecimalSeparator s) (m_ThousandSeparator s).

(** The base sub-object, reading the shared block. *)
Definition to_ostream (s : ostringstream) : Mostream.ostream :=
  Mostream.mk_ostream (mb_Data (m_Buffer s)) (v_Size s) (v_Pos s).

(** Puts the base sub-object back; what it wrote is in the shared block. *)
Definition of_ostream (s : ostringstream) (o : Mostream.ostream)
  : ostringstream :=
  mk_ostringstream
    (mk_memblock (Mostream.m_Data o) (mb_Size (m_Buffer s))
                 (mb_Linked (m_Buffer s)))
    (Mostream.m_Size o) (Mostream.m_Pos o) (m_Flags s) (m_Base s)
    (m_Precision s) (m_Width s) (m_DecimalSeparator s) (m_ThousandSeparator s).

Definition base {A} (m : M Mostream.ostream A) : M ostringstream A :=
  lift to_ostream of_ostream m.

Definition pos (s : ostringstream) : nat := Mostream.pos (to_ostream s).
Definition remaining (s : ostringstream) : nat :=
  Mostream.remaining (to_ostream s).
Definition seek (newPos : nat) : M ostringstream unit :=
  base (Mostream.seek newPos).
Definition skip (size_t_modulus : N) (nBytes : nat)
  : M ostringstream unit :=
  base (Mostream.skip size_t_modulus nBytes).

(** [ostream::link (m_Buffer)]: the view becomes the buffer's
    [begin ()], [size ()]. *)
Definition link_m_Buffer : M ostringstream unit :=
  s <- get ;;
  base (Mostream.link (mb_Data (m_Buffer s)) (mb_Size (m_Buffer s))).

(** The members as the constructors' initialisers set them. *)
Definition init (b : memblock) : ostringstream :=
  mk_ostringstream b (Mostream.m_Size Mostream.ostream_void)
    (Mostream.m_Pos Mostream.ostream_void) 0 10 2 0 "."%char ","%char.

(** [void ostringstream::link (void* p, size_t n)].  [p] is the memory
    linked to, [n] its size; the assertion [p || !n] holds of it. *)
Definition link (p : list char) (n : nat) : M ostringstream unit :=
  base (Mostream.link p n) ;;
  modify (fun s => set_buffer s (memblock_link p n)).

(** [ostringstream::ostringstream (void* p, size_t n)] *)
Definition ostringstream_of_memory (p : list char) (n : nat)
  : outcome ostringstream unit :=
  link p n (init (mk_memblock [] 0 false)).

(** [ostringstream::ostringstream (const string& v)] *)
Definition ostringstream_of_string (v : list char)
  : outcome ostringstream unit :=
  link_m_Buffer (init (memblock_of_string v)).

(** [void ostringstream::str (const string& s)] *)
Definition str (v : list char) : M ostringstream unit :=
  modify (fun s => set_buffer s (assign v (m_Buffer s))) ;;
  link_m_Buffer ;;
  s <- get ;;
  seek (mb_Size (m_Buffer s)).

(** [ostringstream::size_type ostringstream::overflow (size_type n)] *)
Definition overflow (n : nat) : M ostringstream nat :=
  s <- get ;;
  (if remaining s <? n then
     let oldPos := pos s in
     modify (fun s => set_buffer s (reserve (oldPos + n) false (m_Buffer s))) ;;
     modify (fun s => set_buffer s (resize (oldPos + n) (m_Buffer s))) ;;
     link_m_Buffer ;;
     seek oldPos
   else ret tt) ;;
  s <- get ;;
  if remaining s <? n then
    throw (stream_bounds_exception "write" "text" (pos s) n (remaining s))
  else ret (remaining s).

(** The state in which [overflow (n)] leaves its growth branch: the buffer
    reserved and resized, the view linked to it again, the position put
    back. *)
Definition grown (n : nat) (s : ostringstream) : ostringstream :=
  let b := resize (pos s + n) (reserve (pos s + n) false (m_Buffer s)) in
  mk_ostringstream b (mb_Size b) (v_Pos s) (m_Flags s) (m_Base s)
    (m_Precision s) (m_Width s) (m_DecimalSeparator s) (m_ThousandSeparator s).

(** The state after [v] has been copied to the position ([poked]) and after
    the position has moved past it as well ([put]). *)
Definition poked (v : list char) (s : ostringstream) : ostringstream :=
  set_buffer s
    (mk_memblock (store (mb_Data (m_Buffer s)) (v_Pos s) v)
                 (mb_Size (m_Buffer s)) (mb_Linked (m_Buffer s))).

Definition advanced (k : nat) (s : ostringstream) : ostringstream :=
  mk_ostringstream (m_Buffer s) (v_Size s) (v_Pos s + k) (m_Flags s)
    (m_Base s) (m_Precision s) (m_Width s) (m_DecimalSeparator s)
    (m_ThousandSeparator s).

Definition put (v : list char) (s : ostringstream) : ostringstream :=
  advanced (length v) (poked v s).

(** [void ostringstream::write (const void* buffer, size_type sz)] *)
Definition write (buffer : list char) : M ostringstream unit :=
  let sz := length buffer in
  s <- get ;;
  giveup <- (if remaining s <? sz
             then r <- overflow sz ;; ret (r <? sz)
             else ret false) ;;
  if (giveup : bool) then ret tt
  else base (Mostream.write buffer).

(** The loop of [write_buffer]; [fuel] bounds the number of tests of its
    condition. *)
Fixpoint write_buffer_loop (fuel : nat) (buf : list char) (btw written : nat)
  : M ostringstream unit :=
  match fuel with
  | O => fun _ => OutOfFuel
  | S fuel' =>
      let bufSize := length buf in
      let written := written + btw in
      if written <? bufSize then
        s <- get ;;
        go <- (if negb (remaining s =? 0) then ret true
               else r <- overflow (bufSize - written) ;; ret (negb (r =? 0))) ;;
        if (go : bool) then
          s <- get ;;
          let btw := Nat.min (remaining s) (bufSize - written) in
          write (load buf written btw) ;;
          write_buffer_loop fuel' buf btw written
        else ret tt
      else ret tt
  end.

(** [void ostringstream::write_buffer (const char* buf, size_type bufSize)] *)
Definition write_buffer (buf : list char) : M ostringstream unit :=
  write_buffer_loop (S (length buf)) buf 0 0.

(** [void ostringstream::flush (void)] *)
Definition flush : M ostringstream unit :=
  s <- get ;;
  modify (fun s' => set_buffer s' (resize (pos s) (m_Buffer s'))).

Section Formatting.

(** The modulus of [size_t], SIZE_MAX + 1. *)
Variable size_t_modulus : N.

(** The enumerators [left] and [scientific] of [fmtflags] and the default
    argument of [overflow] are declared outside sostream.cc. *)
Variables left scientific : N.
Variable overflow_default : nat.
Variable c_DefaultAlignment : nat.

(** [void ostringstream::iwrite (uint8_t v)] *)
Definition iwrite_uint8 (v : char) : M ostringstream unit :=
  s <- get ;;
  go <- (if 1 <=? remaining s then ret true
         else r <- overflow overflow_default ;; ret (1 <=? r)) ;;
  if (go : bool)
  then base (Mostream.iwrite size_t_modulus c_DefaultAlignment [v])
  else ret tt.

(** The loop of [encode_dec]: one character per turn, while [n /= 10] is not
    zero; [fuel] bounds the number of turns. *)
Fixpoint encode_dec_loop (fuel : nat) (n : N) : list char :=
  match fuel with
  | O => []
  | S fuel' =>
      let c := ascii_of_N (N_of_ascii "0" + n mod 10) in
      let n' := (n / 10)%N in
      c :: (if (n' =? 0)%N then [] else encode_dec_loop fuel' n')
  end.

(** [inline char* ostringstream::encode_dec (char* fmt, uint32_t n) const]:
    [fmt] is what has been written so far. *)
Definition encode_dec (fmt : list char) (n : N) : list char :=
  fmt ++ encode_dec_loop (S (N.to_nat (N.size n))) n.

(** [fmt[-1] = c] *)
Definition set_last (fmt : list char) (c : char) : list char :=
  removelast fmt ++ [c].

(** [void ostringstream::fmtstring (char* fmt, const char* typestr,
    bool bInteger) const]: the string left in [fmt], without its
    terminator. *)
Definition fmtstring (typestr : list char) (bInteger : bool)
  (s : ostringstream) : list char :=
  let fmt := ["%"%char] in
  let fmt := if negb (m_Width s =? 0)%N then encode_dec fmt (m_Width s)
             else fmt in
  let fmt := if negb (N.land (m_Flags s) left =? 0)%N then fmt ++ ["-"%char]
             else fmt in
  let fmt := if negb bInteger
             then encode_dec (fmt ++ ["."%char]) (m_Precision s)
             else fmt in
  let fmt := fmt ++ typestr in
  if bInteger then
    if (m_Base s =? 16)%N then set_last fmt "X"%char
    else if (m_Base s =? 8)%N then set_last fmt "o"%char
    else fmt
  else
    if negb (N.land (m_Flags s) scientific =? 0)%N then set_last fmt "E"%char
    else fmt.

(** The format string in the words of the design document: the percent
    sign, the width as a decimal number when it is not zero, a minus sign
    when left-justified, a dot and the precision as a decimal number for a
    non-integer type, then the type letters with the last one replaced by X
    (base 16) or o (base 8) for an integer type and by E (scientific) for a
    non-integer type. *)
Definition decimal (n : N) : list char :=
  list_ascii_of_string (NilEmpty.string_of_uint (N.to_uint n)).

Definition fmtstring_spec (typestr : list char) (bInteger : bool)
  (s : ostringstream) : list char :=
  ["%"%char]
  ++ (if (m_Width s =? 0)%N then [] else decimal (m_Width s))
  ++ (if (N.land (m_Flags s) left =? 0)%N then [] else ["-"%char])
  ++ (if bInteger then [] else "."%char :: decimal (m_Precision s))
  ++ (if bInteger then
        if (m_Base s =? 16)%N then set_last typestr "X"%char
        else if (m_Base s =? 8)%N then set_last typestr "o"%char
        else typestr
      else
        if (N.land (m_Flags s) scientific =? 0)%N then typestr
        else set_last typestr "E"%char).

(** Modelled from the spec: the bounded printf primitive of the C library.
    Given the text [txt] that the format and its arguments render to, it
    writes up to [capacity - 1] bytes of it plus a terminator and returns the
    number of bytes that would have been written.  A failure of the
    primitive itself (a negative result) is not modelled. *)
Definition snprintf (capacity : nat) (txt : list char) : list char * nat :=
  (match capacity with
   | O => []
   | S c => firstn c txt ++ [zero]
   end, length txt).

Definition c_BufSize : nat := 64.
Definition c_FmtStrSize : nat := 16.

(** [template <typename T> inline void ostringstream::sprintf_iwrite
    (T v, const char* typestr)].  The value [v] is given by [render], the
    text the C library prints it as under a format; [is_integer] is
    [numeric_limits<T>::is_integer]. *)
Definition sprintf_iwrite (render : list char -> list char)
  (typestr : list char) (is_integer : bool) : M ostringstream unit :=
  s <- get ;;
  let fmt := fmtstring typestr is_integer s in
  let '(buffer, i) := snprintf c_BufSize (render fmt) in
  let i := Nat.min i (c_BufSize - 1) in
  write_buffer (firstn i buffer).

(** [void ostringstream::iwrite (int v)] and the other numeric overloads. *)
Definition iwrite_int (render : list char -> list char)
  : M ostringstream unit := sprintf_iwrite render (text "d") true.
Definition iwrite_unsigned_int (render : list char -> list char)
  : M ostringstream unit := sprintf_iwrite render (text "u") true.
Definition iwrite_long (render : list char -> list char)
  : M ostringstream unit := sprintf_iwrite render (text "ld") true.
Definition iwrite_unsigned_long (render : list char -> list char)
  : M ostringstream unit := sprintf_iwrite render (text "lu") true.
Definition iwrite_float (render : list char -> list char)
  : M ostringstream unit := sprintf_iwrite render (text "f") false.
Definition iwrite_double (render : list char -> list char)
  : M ostringstream unit := sprintf_iwrite render (text "lf") false.

(** [void ostringstream::iwrite (bool v)] *)
Definition iwrite_bool (v : bool) : M ostringstream unit :=
  let c_Names := (text "false", text "true") in
  write_buffer (firstn (5 - (if v then 1 else 0))
                  (if v then snd c_Names else fst c_Names)).

(** [void ostringstream::iwrite (const char* s)] and
    [void ostringstream::iwrite (const string& v)] *)
Definition iwrite_string (v : list char) : M ostringstream unit :=
  write_buffer v.

(** [vsnprintf (ipos (), remaining (), fmt, args)] *)
Definition vsnprintf_ipos (txt : list char) : M ostringstream nat :=
  s <- get ;;
  let '(out, rv) := snprintf (remaining s) txt in
  base (Mostream.poke out) ;;
  ret rv.

(** [int ostringstream::vformat (const char* fmt, va_list args)]: [txt] is
    the text that [fmt] and [args] render to. *)
Definition vformat (txt : list char) : M ostringstream nat :=
  rv <- vsnprintf_ipos txt ;;
  s <- get ;;
  rv <- (if remaining s <=? rv then
           r <- overflow (rv + 1) ;;
           if rv <? r then vsnprintf_ipos txt else ret rv
         else ret rv) ;;
  s <- get ;;
  skip size_t_modulus (Nat.min rv (remaining s)) ;;
  ret rv.

(** [int ostringstream::format (const char* fmt, ...)] *)
Definition format (txt : list char) : M ostringstream nat := vformat txt.

End Formatting.

(** The view is the buffer and lies inside its block, and the position lies
    inside the view: the state between two calls, as long as [flush] has not
    shortened the buffer under the view. *)
Definition wf (s : ostringstream) : Prop :=
  v_Pos s <= v_Size s /\
  v_Size s = mb_Size (m_Buffer s) /\
  mb_Size (m_Buffer s) <= length (mb_Data (m_Buffer s)).

Definition owned (s : ostringstream) : Prop := mb_Linked (m_Buffer s) = false.

(** The state the constructor from a string builds, and the one the
    constructor from a memory area builds. *)
Definition stream_over_string (v : list char) : ostringstream :=
  mk_ostringstream (memblock_of_string v) (length v) 0 0 10 2 0
    "."%char ","%char.

Definition stream_over_memory (p : list char) : ostringstream :=
  mk_ostringstream (memblock_link p (length p)) (length p) 0 0 10 2 0
    "."%char ","%char.

(** *** Manipulators *)

Section Manipulators.

(** The enumerators of [fmtflags], declared outside sostream.cc. *)
Variables oct dec hex left right : N.

Definition set_flags (s : ostringstream) (f : N) : ostringstream :=
  mk_ostringstream (m_Buffer s) (v_Size s) (v_Pos s) f (m_Base s)
    (m_Precision s) (m_Width s) (m_DecimalSeparator s) (m_ThousandSeparator s).

(** Modelled from the spec: [set_base] is declared outside sostream.cc; it
    sets the numeric base. *)
Definition set_base (b : N) : M ostringstream unit :=
  modify (fun s =>
    mk_ostringstream (m_Buffer s) (v_Size s) (v_Pos s) (m_Flags s) b
      (m_Precision s) (m_Width s) (m_DecimalSeparator s)
      (m_ThousandSeparator s)).

(** [void ostringstream::iwrite (fmtflags f)]: the cases of the [switch],
    in their order; [m_Flags &= ~x] clears the bits of [x]. *)
Definition iwrite_fmtflags (f : N) : M ostringstream unit :=
  if (f =? oct)%N then set_base 8
  else if (f =? dec)%N then set_base 10
  else if (f =? hex)%N then set_base 16
  else if (f =? left)%N then
    modify (fun s => set_flags s (N.lor (m_Flags s) left)) ;;
    modify (fun s => set_flags s (N.ldiff (m_Flags s) right))
  else if (f =? right)%N then
    modify (fun s => set_flags s (N.lor (m_Flags s) right)) ;;
    modify (fun s => set_flags s (N.ldiff (m_Flags s) left))
  else
    modify (fun s => set_flags s (N.lor (m_Flags s) f)).

End Manipulators.

(** *** Callers *)

(** Calls of [write], one per chunk, and of [format], one per text. *)
Fixpoint write_each (chunks : list (list char)) : M ostringstream unit :=
  match chunks with
  | [] => ret tt
  | c :: rest => write c ;; write_each rest
  end.

Fixpoint format_each (size_t_modulus : N) (txts : list (list char))
  : M ostringstream unit :=
  match txts with
  | [] => ret tt
  | t :: rest => format size_t_modulus t ;; format_each size_t_modulus rest
  end.

(** The number a run of decimal digits stands for, as the C library reads
    a width or a precision in a format string: most significant digit
    first. *)
Definition digit_value (c : char) : N := (N_of_ascii c - N_of_ascii "0")%N.

Definition numeral_value (digits : list char) : N :=
  fold_left (fun acc c => (10 * acc + digit_value c)%N) digits 0%N.

Definition is_digit (c : char) : Prop :=
  (N_of_ascii "0" <= N_of_ascii c <= N_of_ascii "9")%N.

End Sostream.

(** * Properties *)

(** ** Blocks *)

Section BlockFacts.

Lemma store_length (d : list char) p v :
  p + length v <= length d -> length (store d p v) = length d.
Proof.
  intros H. unfold store.
  rewrite !length_app, length_firstn, length_skipn. lia.
Qed.

Lemma store_nil (d : list char) p : store d p [] = d.
Proof.
  unfold store. simpl. rewrite Nat.add_0_r. apply firstn_skipn.
Qed.

Lemma load_store (d : list char) p v :
  p <= length d -> load (store d p v) p (length v) = v.
Proof.
  intros H. unfold load, store.
  assert (L : length (firstn p d) = p) by (rewrite length_firstn; lia).
  rewrite skipn_app, L, Nat.sub_diag. simpl.
  rewrite (skipn_all2 (firstn p d)) by lia. simpl.
  rewrite firstn_app, Nat.sub_diag, firstn_all. simpl.
  now rewrite app_nil_r.
Qed.

Lemma store_firstn (d : list char) p v k :
  k <= p -> p <= length d -> firstn k (store d p v) = firstn k d.
Proof.
  intros Hk Hp. unfold store.
  rewrite firstn_app, length_firstn, firstn_firstn.
  replace (Nat.min k p) with k by lia.
  replace (k - Nat.min p (length d)) with 0 by lia.
  simpl. now rewrite app_nil_r.
Qed.

Lemma store_skipn (d : list char) p v :
  p <= length d ->
  skipn (p + length v) (store d p v) = skipn (p + length v) d.
Proof.
  intros Hp. unfold store.
  assert (L : length (firstn p d) = p) by (rewrite length_firstn; lia).
  rewrite skipn_app, L.
  rewrite (skipn_all2 (firstn p d)) by lia. simpl.
  replace (p + length v - p) with (length v) by lia.
  rewrite skipn_app, Nat.sub_diag, skipn_all. reflexivity.
Qed.

End BlockFacts.

(** ** The binary cursor *)

Section OstreamFacts.

Import Mostream.

Variable size_t_modulus : N.
Variable c_DefaultAlignment : nat.

Lemma size_t_add_small a b :
  in_size_t size_t_modulus (a + b) ->
  size_t_add size_t_modulus a b = a + b.
Proof.
  unfold in_size_t, size_t_add. intros H.
  rewrite <- Nat2N.inj_add, N.mod_small by exact H.
  apply Nat2N.id.
Qed.

Lemma in_size_t_le a b :
  a <= b -> in_size_t size_t_modulus b -> in_size_t size_t_modulus a.
Proof. unfold in_size_t. lia. Qed.

Lemma seek_ok newPos os :
  newPos <= size os -> seek newPos os = Ok tt (set_pos os newPos).
Proof.
  intros H. unfold seek, bind, get, assert, modify.
  apply Nat.leb_le in H. now rewrite H.
Qed.

Lemma seek_fail newPos os :
  size os < newPos -> seek newPos os = AssertFail.
Proof.
  intros H. unfold seek, bind, get, assert, modify.
  apply Nat.leb_gt in H. now rewrite H.
Qed.

Lemma seek_inv newPos os os' :
  seek newPos os = Ok tt os' -> newPos <= size os /\ os' = set_pos os newPos.
Proof.
  destruct (Nat.le_gt_cases newPos (size os)) as [H | H].
  - rewrite seek_ok by exact H. intros E. injection E as <-. auto.
  - rewrite seek_fail by exact H. discriminate.
Qed.

Lemma skip_is_seek nBytes os :
  skip size_t_modulus nBytes os =
  seek (size_t_add size_t_modulus (pos os) nBytes) os.
Proof. reflexivity. Qed.

(** A skip whose sum is a value of [size_t] and stays inside the view. *)
Lemma skip_ok nBytes os :
  in_size_t size_t_modulus (pos os + nBytes) ->
  pos os + nBytes <= size os ->
  skip size_t_modulus nBytes os = Ok tt (set_pos os (pos os + nBytes)).
Proof.
  intros Hs H. rewrite skip_is_seek, size_t_add_small by exact Hs.
  now apply seek_ok.
Qed.

Lemma write_ok buffer os :
  pos os <= size os -> length buffer <= remaining os ->
  write buffer os =
  Ok tt (mk_ostream (store (m_Data os) (pos os) buffer) (m_Size os)
                    (pos os + length buffer)).
Proof.
  intros Hp Hr. unfold write, bind, get, assert, poke, modify.
  apply Nat.leb_le in Hr as Hb. now rewrite Hb.
Qed.

Lemma write_fail buffer os :
  remaining os < length buffer -> write buffer os = AssertFail.
Proof.
  intros Hr. unfold write, bind, get, assert.
  apply Nat.leb_gt in Hr. now rewrite Hr.
Qed.

Lemma iwrite_ok v os :
  in_size_t size_t_modulus (pos os + length v) ->
  pos os <= size os ->
  aligned (Nat.min (length v) c_DefaultAlignment) os = true ->
  length v <= remaining os ->
  iwrite size_t_modulus c_DefaultAlignment v os =
  Ok tt (mk_ostream (store (m_Data os) (pos os) v) (m_Size os)
                    (pos os + length v)).
Proof.
  intros Hs Hp Ha Hr. unfold iwrite, bind, get, assert, poke, modify.
  replace (if length v <? c_DefaultAlignment then length v
           else c_DefaultAlignment)
    with (Nat.min (length v) c_DefaultAlignment)
    by (destruct (Nat.ltb_spec (length v) c_DefaultAlignment); lia).
  rewrite Ha. apply Nat.leb_le in Hr as Hb. rewrite Hb.
  rewrite skip_ok.
  - reflexivity.
  - exact Hs.
  - unfold remaining, size, pos in *. simpl. lia.
Qed.

(** Every operation that returns leaves the position inside the view:
    [write] by its own assertion, the others by the assertion of [seek]. *)
Lemma step_bound o os os' :
  pos os <= size os ->
  step size_t_modulus c_DefaultAlignment o os = Ok tt os' ->
  pos os' <= size os' /\ size os' = size os.
Proof.
  intros Hp. destruct o as [n | n | g | b | v]; simpl.
  - intros H. apply seek_inv in H as [H ->]. auto.
  - rewrite skip_is_seek. intros H. apply seek_inv in H as [H ->]. auto.
  - unfold align, bind, get.
    intros H. apply seek_inv in H as [H ->]. auto.
  - unfold write, bind, get, assert, poke, modify.
    destruct (length b <=? remaining os) eqn:Hb; [ | discriminate ].
    intros H. injection H as <-. apply Nat.leb_le in Hb.
    unfold remaining, size, pos in *. simpl. lia.
  - unfold iwrite, bind, get, assert, poke, modify.
    destruct (aligned _ os); [ | discriminate ].
    destruct (length v <=? remaining os); [ | discriminate ].
    rewrite skip_is_seek. intros H. apply seek_inv in H as [H ->]. auto.
Qed.

Lemma run_bound ops : forall os os',
  pos os <= size os ->
  run size_t_modulus c_DefaultAlignment ops os = Ok tt os' ->
  pos os' <= size os' /\ size os' = size os.
Proof.
  induction ops as [ | o rest IH]; intros os os' Hp; simpl.
  - unfold ret. intros E. injection E as <-. auto.
  - unfold bind.
    destruct (step size_t_modulus c_DefaultAlignment o os)
      as [[] os1 | | | ] eqn:E1; try discriminate.
    apply step_bound in E1 as [H1 H2]; [ | exact Hp ].
    intros E2. apply IH in E2 as [H3 H4]; [ | exact H1 ].
    split; [ exact H3 | congruence ].
Qed.

End OstreamFacts.

(** C6: a typed write of a value of a fixed-size plain-data type, given by
    its object representation [v] of [sizeof (T)] bytes, at a position
    aligned on min (sizeof (T), default alignment) and with
    remaining () >= sizeof (T), returns, stores exactly the bytes of [v] at
    the old position, leaves every other byte and the size as they were, and
    advances the position by sizeof (T).  The new position is a value of
    [size_t]. *)
Theorem iwrite_stores_object_representation
  (size_t_modulus : N) (c_DefaultAlignment : nat) (v : list char)
  (os : Mostream.ostream) :
  in_size_t size_t_modulus (Mostream.pos os + length v) ->
  Mostream.wf os ->
  Mostream.aligned (Nat.min (length v) c_DefaultAlignment) os = true ->
  length v <= Mostream.remaining os ->
  exists os',
    Mostream.iwrite size_t_modulus c_DefaultAlignment v os = Ok tt os' /\
    Mostream.pos os' = Mostream.pos os + length v /\
    load (Mostream.m_Data os') (Mostream.pos os) (length v) = v /\
    firstn (Mostream.pos os) (Mostream.m_Data os') =
      firstn (Mostream.pos os) (Mostream.m_Data os) /\
    skipn (Mostream.pos os + length v) (Mostream.m_Data os') =
      skipn (Mostream.pos os + length v) (Mostream.m_Data os) /\
    Mostream.size os' = Mostream.size os.
Proof.
  intros Hm [Hp Hs] Ha Hr.
  eexists. split; [ apply iwrite_ok; assumption | ].
  unfold Mostream.pos, Mostream.size in *. simpl.
  repeat split.
  - apply load_store. lia.
  - apply store_firstn; lia.
  - apply store_skipn. lia.
Qed.

(** The scenario of C6: the 4-byte int 1234 written at position 0 of a fresh
    4-byte buffer, on a little-endian host with a [size_t] of 64 bits and a
    default alignment of 4. *)
Lemma iwrite_int_1234 :
  exists os',
    Mostream.iwrite (2 ^ 64) 4
      (Mostream.int_repr Mostream.LittleEndian 4 1234)
      (Mostream.mk_ostream (repeat Sostream.zero 4) 4 0) = Ok tt os' /\
    Mostream.pos os' = 4 /\
    load (Mostream.m_Data os') 0 4 =
      Mostream.int_repr Mostream.LittleEndian 4 1234.
Proof.
  destruct (iwrite_stores_object_representation (2 ^ 64) 4
              (Mostream.int_repr Mostream.LittleEndian 4 1234)
              (Mostream.mk_ostream (repeat Sostream.zero 4) 4 0))
    as (os' & H1 & H2 & H3 & _).
  - vm_compute. reflexivity.
  - split; simpl; lia.
  - reflexivity.
  - vm_compute. lia.
  - exists os'. repeat split; assumption.
Defined.

(** C7: from a state with position <= size, every sequence of seek, skip,
    align, write and typed-write operations that returns, a skip whose sum
    wraps around included, ends with position <= size and the same size.
    There seek (n) returns exactly when n <= size, with the position equal
    to [n], before or behind the old one, and nothing else changed, and
    fails its assertion otherwise; and skip (n) is seek (position + n),
    the sum being the one of [size_t]: it returns exactly when that sum is
    at most the size, with the position equal to it. *)
Theorem position_bound_invariant
  (size_t_modulus : N) (c_DefaultAlignment : nat)
  (ops : list Mostream.cursor_op) (os os' : Mostream.ostream) (n : nat) :
  Mostream.pos os <= Mostream.size os ->
  Mostream.run size_t_modulus c_DefaultAlignment ops os = Ok tt os' ->
  Mostream.pos os' <= Mostream.size os' /\
  Mostream.size os' = Mostream.size os /\
  (n <= Mostream.size os' ->
   exists os'',
     Mostream.seek n os' = Ok tt os'' /\
     Mostream.pos os'' = n /\
     Mostream.size os'' = Mostream.size os' /\
     Mostream.m_Data os'' = Mostream.m_Data os') /\
  (Mostream.size os' < n -> Mostream.seek n os' = AssertFail) /\
  Mostream.skip size_t_modulus n os' =
    Mostream.seek (size_t_add size_t_modulus (Mostream.pos os') n) os' /\
  (size_t_add size_t_modulus (Mostream.pos os') n <= Mostream.size os' ->
   exists os'',
     Mostream.skip size_t_modulus n os' = Ok tt os'' /\
     Mostream.pos os'' = size_t_add size_t_modulus (Mostream.pos os') n /\
     Mostream.size os'' = Mostream.size os' /\
     Mostream.m_Data os'' = Mostream.m_Data os') /\
  (Mostream.size os' < size_t_add size_t_modulus (Mostream.pos os') n ->
   Mostream.skip size_t_modulus n os' = AssertFail).
Proof.
  intros Hp Hrun.
  destruct (run_bound size_t_modulus c_DefaultAlignment ops os os' Hp Hrun)
    as [H1 H2].
  split; [ exact H1 | ]. split; [ exact H2 | ].
  split.
  { intros Hn. exists (Mostream.set_pos os' n).
    split; [ now apply seek_ok | ]. split; [ reflexivity | ].
    split; reflexivity. }
  split; [ apply seek_fail | ].
  split; [ reflexivity | ].
  split.
  - intros Hn.
    exists (Mostream.set_pos os'
              (size_t_add size_t_modulus (Mostream.pos os') n)).
    split; [ rewrite skip_is_seek; now apply seek_ok | ].
    split; [ reflexivity | ]. split; reflexivity.
  - intros Hn. rewrite skip_is_seek. now apply seek_fail.
Qed.

(** A run on eight bytes with a [size_t] of 8 bits: a seek forward, an
    align, a skip, a write, a skip of SIZE_MAX, whose sum wraps around to
    one byte back, and a seek backward. *)
Lemma position_bound_invariant_witness :
  let os := Mostream.mk_ostream (repeat Sostream.zero 8) 8 0 in
  let ops := [Mostream.OpSeek 3; Mostream.OpAlign 4; Mostream.OpSkip 2;
              Mostream.OpWrite ["a"%char; "b"%char];
              Mostream.OpSkip 255; Mostream.OpSeek 1] in
  let os' := Mostream.mk_ostream
               (repeat Sostream.zero 6 ++ ["a"%char; "b"%char]) 8 1 in
  Mostream.run 256 4 ops os = Ok tt os' /\
  Mostream.pos os' <= Mostream.size os' /\
  Mostream.size os' = Mostream.size os /\
  (5 <= Mostream.size os' ->
   exists os'',
     Mostream.seek 5 os' = Ok tt os'' /\
     Mostream.pos os'' = 5 /\
     Mostream.size os'' = Mostream.size os' /\
     Mostream.m_Data os'' = Mostream.m_Data os') /\
  (Mostream.size os' < 5 -> Mostream.seek 5 os' = AssertFail) /\
  Mostream.skip 256 5 os' =
    Mostream.seek (size_t_add 256 (Mostream.pos os') 5) os' /\
  (size_t_add 256 (Mostream.pos os') 5 <= Mostream.size os' ->
   exists os'',
     Mostream.skip 256 5 os' = Ok tt os'' /\
     Mostream.pos os'' = size_t_add 256 (Mostream.pos os') 5 /\
     Mostream.size os'' = Mostream.size os' /\
     Mostream.m_Data os'' = Mostream.m_Data os') /\
  (Mostream.size os' < size_t_add 256 (Mostream.pos os') 5 ->
   Mostream.skip 256 5 os' = AssertFail).
Proof.
  intros os ops os'.
  assert (Hrun : Mostream.run 256 4 ops os = Ok tt os')
    by (vm_compute; reflexivity).
  split; [ exact Hrun | ].
  apply (position_bound_invariant 256 4 ops os os' 5).
  - simpl. lia.
  - exact Hrun.
Defined.

(** ** The text stream *)

Ltac leb_props :=
  repeat match goal with
    | H : (_ <=? _) = true |- _ => apply Nat.leb_le in H
    | H : (_ <=? _) = false |- _ => apply Nat.leb_gt in H
    | H : (_ <? _) = true |- _ => apply Nat.ltb_lt in H
    | H : (_ <? _) = false |- _ => apply Nat.ltb_ge in H
    end.

Section OstringstreamFacts.

Import Sostream.

Variable size_t_modulus : N.

Ltac destruct_stream s :=
  destruct s as [[d sz lk] vs vp fl ba pr wi ds ts].

Ltac run_monad :=
  cbv beta iota zeta delta
    [overflow write seek skip link_m_Buffer flush base lift grown poked put
     advanced Mostream.write Mostream.seek Mostream.skip Mostream.link
     Mostream.poke bind get modify ret throw assert
     to_ostream of_ostream set_buffer m_Buffer v_Size v_Pos m_Flags m_Base
     m_Precision m_Width m_DecimalSeparator m_ThousandSeparator
     mb_Data mb_Size mb_Linked Mostream.m_Data Mostream.m_Size
     Mostream.m_Pos Mostream.size Mostream.pos Mostream.set_pos
     Mostream.set_data Mostream.remaining pos remaining].

Lemma stream_seek_ok newPos s :
  newPos <= v_Size s ->
  seek newPos s =
  Ok tt (mk_ostringstream (m_Buffer s) (v_Size s) newPos (m_Flags s)
           (m_Base s) (m_Precision s) (m_Width s) (m_DecimalSeparator s)
           (m_ThousandSeparator s)).
Proof.
  intros H. destruct_stream s. run_monad.
  apply Nat.leb_le in H. cbn in H. now rewrite H.
Qed.

Lemma overflow_fit n s :
  n <= remaining s -> overflow n s = Ok (remaining s) s.
Proof.
  intros H. destruct_stream s. run_monad.
  unfold remaining, Mostream.remaining in H. cbn in H.
  assert (E : (vs - vp <? n) = false) by (apply Nat.ltb_ge; exact H).
  rewrite E. run_monad. rewrite E. reflexivity.
Qed.

Lemma overflow_grow n s :
  remaining s < n ->
  overflow n s =
  if pos s <=? v_Size (grown n s) then
    if remaining (grown n s) <? n then
      Throw (stream_bounds_exception "write" "text" (pos s) n
               (remaining (grown n s))) (grown n s)
    else Ok (remaining (grown n s)) (grown n s)
  else AssertFail.
Proof.
  intros H. destruct_stream s. run_monad.
  unfold remaining, Mostream.remaining in H. cbn in H.
  assert (E : (vs - vp <? n) = true) by (apply Nat.ltb_lt; exact H).
  rewrite E. run_monad.
  destruct (resize (vp + n) _) as [d' sz' lk'].
  destruct (vp <=? sz'); [ | reflexivity ].
  destruct (sz' - vp <? n); reflexivity.
Qed.


Lemma reserve_linked n f b : mb_Linked b = true -> reserve n f b = b.
Proof. intros H. unfold reserve. now rewrite H. Qed.

Lemma reserve_enough n f b : n <= length (mb_Data b) -> reserve n f b = b.
Proof.
  intros H. unfold reserve. apply Nat.leb_le in H.
  now rewrite H, orb_true_r.
Qed.

Lemma reserve_extend n f b :
  mb_Linked b = false -> length (mb_Data b) < n ->
  reserve n f b =
  mk_memblock (mb_Data b ++ repeat zero (n - length (mb_Data b)))
              (mb_Size b) false.
Proof.
  intros Hl H. unfold reserve. apply Nat.leb_gt in H.
  now rewrite Hl, H.
Qed.

Lemma resize_within n b :
  n <= length (mb_Data b) ->
  resize n b = mk_memblock (mb_Data b) n (mb_Linked b).
Proof.
  intros H. unfold resize. rewrite reserve_enough by exact H.
  apply Nat.leb_le in H. now rewrite H.
Qed.

Lemma resize_linked_beyond n b :
  mb_Linked b = true -> length (mb_Data b) < n -> resize n b = b.
Proof.
  intros Hl H. unfold resize. rewrite reserve_linked by exact Hl.
  apply Nat.leb_gt in H. now rewrite H.
Qed.

Lemma resize_owned_beyond n b :
  mb_Linked b = false -> length (mb_Data b) < n ->
  resize n b =
  mk_memblock (mb_Data b ++ repeat zero (n - length (mb_Data b))) n false.
Proof.
  intros Hl H. unfold resize. rewrite reserve_extend by assumption.
  cbn [mb_Data mb_Linked mb_Size].
  rewrite length_app, repeat_length.
  replace (n <=? length (mb_Data b) + (n - length (mb_Data b))) with true
    by (symmetry; apply Nat.leb_le; lia).
  reflexivity.
Qed.

(** The modelled buffer: what [resize] after [reserve] gives. *)
Lemma resize_reserve n f b :
  let b' := resize n (reserve n f b) in
  mb_Linked b' = mb_Linked b /\
  (exists tail, mb_Data b' = mb_Data b ++ tail) /\
  (mb_Linked b = true -> mb_Data b' = mb_Data b) /\
  (mb_Linked b = false -> mb_Size b' = n) /\
  (n <= length (mb_Data b) -> mb_Size b' = n /\ mb_Data b' = mb_Data b) /\
  (mb_Linked b = true -> length (mb_Data b) < n -> b' = b) /\
  (mb_Size b <= length (mb_Data b) -> mb_Size b' <= length (mb_Data b')) /\
  (mb_Size b' = n \/ mb_Size b' = mb_Size b).
Proof.
  cbv zeta.
  destruct (Nat.le_gt_cases n (length (mb_Data b))) as [H | H].
  - rewrite reserve_enough, resize_within by exact H.
    cbn [mb_Data mb_Linked mb_Size].
    repeat split; intros; try lia.
    exists []. now rewrite app_nil_r.
  - destruct (mb_Linked b) eqn:Hl.
    + rewrite reserve_linked, resize_linked_beyond by assumption.
      repeat split; intros; try discriminate; try lia; try assumption.
      exists []. now rewrite app_nil_r.
    + rewrite reserve_extend by assumption.
      rewrite resize_within
        by (cbn [mb_Data]; rewrite length_app, repeat_length; lia).
      cbn [mb_Data mb_Linked mb_Size].
      rewrite length_app, repeat_length.
      repeat split; intros; try discriminate; try lia.
      eexists; reflexivity.
Qed.

Lemma grown_pos n s : pos (grown n s) = pos s.
Proof. reflexivity. Qed.

Lemma grown_linked n s :
  mb_Linked (m_Buffer (grown n s)) = mb_Linked (m_Buffer s).
Proof. apply (resize_reserve (pos s + n) false (m_Buffer s)). Qed.

(** The growth attempt only ever appends to the block. *)
Lemma grown_data n s :
  exists tail, mb_Data (m_Buffer (grown n s)) = mb_Data (m_Buffer s) ++ tail.
Proof. apply (resize_reserve (pos s + n) false (m_Buffer s)). Qed.

(** An owned buffer takes the size asked for. *)
Lemma grown_owned n s :
  owned s -> wf s ->
  mb_Size (m_Buffer (grown n s)) = pos s + n /\
  v_Size (grown n s) = pos s + n /\
  pos s + n <= length (mb_Data (m_Buffer (grown n s))) /\
  remaining (grown n s) = n.
Proof.
  intros Ho (Hp & Hv & Hc).
  destruct (resize_reserve (pos s + n) false (m_Buffer s))
    as (_ & _ & _ & Hsz & _ & _ & Hcap & _).
  specialize (Hsz Ho). specialize (Hcap Hc).
  unfold remaining, Mostream.remaining, Mostream.size, Mostream.pos.
  cbn [to_ostream Mostream.m_Size Mostream.m_Pos grown v_Size v_Pos m_Buffer]
    in *.
  change (pos s) with (v_Pos s) in *.
  rewrite Hsz in *. repeat split; try lia.
Qed.

(** A linked buffer keeps its block. *)
Lemma grown_linked_data n s :
  mb_Linked (m_Buffer s) = true ->
  mb_Data (m_Buffer (grown n s)) = mb_Data (m_Buffer s).
Proof. apply (resize_reserve (pos s + n) false (m_Buffer s)). Qed.

Lemma grown_wf n s :
  wf s -> remaining s < n -> pos s <= v_Size (grown n s) -> wf (grown n s).
Proof.
  intros (Hp & Hv & Hc) Hr Hpos.
  destruct (resize_reserve (pos s + n) false (m_Buffer s))
    as (_ & _ & _ & _ & _ & _ & Hcap & _).
  specialize (Hcap Hc).
  unfold wf. cbn [grown v_Size v_Pos m_Buffer] in *.
  repeat split; try assumption.
Qed.

Lemma base_write_ok buffer s :
  v_Pos s <= v_Size s -> length buffer <= remaining s ->
  base (Mostream.write buffer) s = Ok tt (put buffer s).
Proof.
  intros Hp Hr. unfold base, lift.
  rewrite write_ok.
  - destruct_stream s. reflexivity.
  - exact Hp.
  - exact Hr.
Qed.

Lemma write_fit buffer s :
  v_Pos s <= v_Size s -> length buffer <= remaining s ->
  write buffer s = Ok tt (put buffer s).
Proof.
  intros Hp Hr. unfold write, bind, get.
  apply Nat.ltb_ge in Hr as Hb. rewrite Hb. unfold ret.
  now apply base_write_ok.
Qed.

Lemma write_grow buffer s :
  remaining s < length buffer ->
  write buffer s =
  let g := grown (length buffer) s in
  if pos s <=? v_Size g then
    if remaining g <? length buffer then
      Throw (stream_bounds_exception "write" "text" (pos s) (length buffer)
               (remaining g)) g
    else Ok tt (put buffer g)
  else AssertFail.
Proof.
  intros Hr. cbv zeta. unfold write, bind at 1 2, get.
  apply Nat.ltb_lt in Hr as Hb. rewrite Hb.
  unfold bind. rewrite overflow_grow by exact Hr.
  destruct (pos s <=? v_Size (grown (length buffer) s)) eqn:Hp;
    [ | reflexivity ].
  destruct (remaining (grown (length buffer) s) <? length buffer) eqn:Hg;
    [ reflexivity | ].
  unfold ret. rewrite Hg.
  leb_props. apply base_write_ok.
  - exact Hp.
  - exact Hg.
Qed.

Lemma overflow_cases n s :
  (n <= remaining s /\ overflow n s = Ok (remaining s) s) \/
  (remaining s < n /\ v_Size (grown n s) < pos s /\
   overflow n s = AssertFail) \/
  (remaining s < n /\ pos s <= v_Size (grown n s) /\
   remaining (grown n s) < n /\
   overflow n s =
   Throw (stream_bounds_exception "write" "text" (pos s) n
            (remaining (grown n s))) (grown n s)) \/
  (remaining s < n /\ pos s <= v_Size (grown n s) /\
   n <= remaining (grown n s) /\
   overflow n s = Ok (remaining (grown n s)) (grown n s)).
Proof.
  destruct (Nat.le_gt_cases n (remaining s)) as [H | H].
  - left. split; [ exact H | now apply overflow_fit ].
  - right. rewrite overflow_grow by exact H.
    destruct (pos s <=? v_Size (grown n s)) eqn:Hp; leb_props.
    + right.
      destruct (remaining (grown n s) <? n) eqn:Hg; leb_props; auto 6.
    + left. auto.
Qed.

Lemma overflow_ok_inv n s r s0 :
  overflow n s = Ok r s0 ->
  r = remaining s0 /\ n <= r /\ (s0 = s \/ s0 = grown n s).
Proof.
  destruct (overflow_cases n s)
    as [(H & E) | [(H & Hp & E) | [(H & Hp & Hg & E) | (H & Hp & Hg & E)]]];
    rewrite E; try discriminate;
    intros Eq; injection Eq as <- <-; auto.
Qed.

Lemma overflow_terminates n s : overflow n s <> OutOfFuel.
Proof.
  destruct (overflow_cases n s)
    as [(H & E) | [(H & Hp & E) | [(H & Hp & Hg & E) | (H & Hp & Hg & E)]]];
    rewrite E; discriminate.
Qed.

Lemma write_terminates buffer s : write buffer s <> OutOfFuel.
Proof.
  destruct (Nat.le_gt_cases (length buffer) (remaining s)) as [H | H].
  - unfold write, bind, get. apply Nat.ltb_ge in H. rewrite H.
    unfold ret, base, lift.
    unfold Mostream.write, bind, get, assert, Mostream.poke, modify.
    destruct (length buffer <=? _); discriminate.
  - rewrite write_grow by exact H. cbv zeta.
    destruct (_ <=? _); [ | discriminate ].
    destruct (_ <? _); discriminate.
Qed.

(** The loop of [write_buffer] ends within [S (length buf)] tests. *)
Lemma write_buffer_loop_terminates fuel : forall buf btw written s,
  length buf - (written + btw) < fuel ->
  write_buffer_loop fuel buf btw written s <> OutOfFuel.
Proof.
  induction fuel as [ | fuel IH]; intros buf btw written s Hf; [ lia | ].
  cbn [write_buffer_loop].
  destruct (written + btw <? length buf) eqn:Hw; [ | discriminate ].
  leb_props. unfold bind at 1, get at 1. unfold bind at 1.
  assert (Step : forall s0,
    1 <= remaining s0 ->
    (s1 <- get ;;
     write (load buf (written + btw)
              (Nat.min (remaining s1) (length buf - (written + btw)))) ;;
     write_buffer_loop fuel buf
       (Nat.min (remaining s1) (length buf - (written + btw)))
       (written + btw)) s0 <> OutOfFuel).
  { intros s0 H0. unfold bind, get.
    destruct (write _ s0) eqn:Ew; try discriminate.
    - apply IH. lia.
    - now apply write_terminates in Ew. }
  destruct (remaining s =? 0) eqn:Hr; cbn [negb].
  - unfold bind.
    destruct (overflow (length buf - (written + btw)) s) as [r s0 | | | ]
      eqn:Eo; try discriminate.
    + apply overflow_ok_inv in Eo as (-> & Hn & _).
      unfold ret.
      destruct (remaining s0 =? 0) eqn:Hr0; cbn [negb].
      * apply Nat.eqb_eq in Hr0. lia.
      * apply Step. lia.
    + now apply overflow_terminates in Eo.
  - unfold ret. apply Nat.eqb_neq in Hr. apply Step. lia.
Qed.

Lemma write_buffer_terminates buf s : write_buffer buf s <> OutOfFuel.
Proof. apply write_buffer_loop_terminates. lia. Qed.

Lemma store_prefix (d : list char) p v :
  p <= length d -> firstn (p + length v) (store d p v) = firstn p d ++ v.
Proof.
  intros H. unfold store.
  assert (L : length (firstn p d) = p) by (rewrite length_firstn; lia).
  rewrite firstn_app, L.
  rewrite (firstn_all2 (firstn p d)) by lia.
  replace (p + length v - p) with (length v) by lia.
  rewrite firstn_app, Nat.sub_diag, firstn_all. cbn.
  now rewrite app_nil_r.
Qed.

Lemma load_length (d : list char) p n :
  p + n <= length d -> length (load d p n) = n.
Proof.
  intros H. unfold load. rewrite length_firstn, length_skipn. lia.
Qed.

Lemma put_wf v s :
  wf s -> length v <= remaining s -> wf (put v s).
Proof.
  intros (Hp & Hv & Hc) Hr.
  unfold remaining, Mostream.remaining, Mostream.size, Mostream.pos in Hr.
  cbn [to_ostream Mostream.m_Size Mostream.m_Pos] in Hr.
  unfold wf, put, advanced, poked.
  cbn [set_buffer v_Pos v_Size m_Buffer mb_Data mb_Size].
  rewrite store_length by lia. repeat split; lia.
Qed.

Lemma put_prefix v s :
  wf s ->
  firstn (pos (put v s)) (mb_Data (m_Buffer (put v s))) =
  firstn (pos s) (mb_Data (m_Buffer s)) ++ v.
Proof.
  intros (Hp & Hv & Hc).
  change (pos (put v s)) with (v_Pos s + length v).
  change (pos s) with (v_Pos s).
  unfold put, advanced, poked. cbn [set_buffer m_Buffer mb_Data].
  apply store_prefix. lia.
Qed.

Lemma grown_prefix n s :
  wf s ->
  firstn (pos (grown n s)) (mb_Data (m_Buffer (grown n s))) =
  firstn (pos s) (mb_Data (m_Buffer s)).
Proof.
  intros (Hp & Hv & Hc).
  destruct (grown_data n s) as [tail ->].
  change (pos (grown n s)) with (v_Pos s). change (pos s) with (v_Pos s).
  rewrite firstn_app.
  replace (v_Pos s - length (mb_Data (m_Buffer s))) with 0 by lia.
  cbn. now rewrite app_nil_r.
Qed.

(** On an owned buffer the loop of [write_buffer] returns, having appended
    what was left of [buf] to what the stream held before its position. *)
Lemma write_buffer_loop_owned fuel : forall buf btw written s,
  wf s -> owned s ->
  written + btw <= length buf ->
  length buf - (written + btw) < fuel ->
  exists s',
    write_buffer_loop fuel buf btw written s = Ok tt s' /\
    wf s' /\ owned s' /\
    pos s' = pos s + (length buf - (written + btw)) /\
    firstn (pos s') (mb_Data (m_Buffer s')) =
    firstn (pos s) (mb_Data (m_Buffer s)) ++ skipn (written + btw) buf.
Proof.
  induction fuel as [ | fuel IH]; intros buf btw written s Hwf Ho Hle Hf;
    [ lia | ].
  cbn [write_buffer_loop].
  destruct (written + btw <? length buf) eqn:Hw; leb_props.
  - (* one more turn: find room, write a chunk, go on *)
    assert (Step : forall s0,
      wf s0 -> owned s0 -> 1 <= remaining s0 -> pos s0 = pos s ->
      firstn (pos s0) (mb_Data (m_Buffer s0)) =
        firstn (pos s) (mb_Data (m_Buffer s)) ->
      exists s',
        (s1 <- get ;;
         write (load buf (written + btw)
                  (Nat.min (remaining s1) (length buf - (written + btw)))) ;;
         write_buffer_loop fuel buf
           (Nat.min (remaining s1) (length buf - (written + btw)))
           (written + btw)) s0 = Ok tt s' /\
        wf s' /\ owned s' /\
        pos s' = pos s + (length buf - (written + btw)) /\
        firstn (pos s') (mb_Data (m_Buffer s')) =
        firstn (pos s) (mb_Data (m_Buffer s)) ++ skipn (written + btw) buf).
    { intros s0 Hwf0 Ho0 Hr0 Hp0 Hd0. unfold bind, get.
      set (k := Nat.min (remaining s0) (length buf - (written + btw))).
      set (chunk := load buf (written + btw) k).
      assert (Lc : length chunk = k) by (apply load_length; lia).
      rewrite write_fit; [ | apply Hwf0 | lia ].
      destruct (IH buf k (written + btw) (put chunk s0))
        as (s' & E & Hwf' & Ho' & Hp' & Hd').
      - apply put_wf; [ exact Hwf0 | lia ].
      - exact Ho0.
      - lia.
      - lia.
      - exists s'. split; [ exact E | ].
        split; [ exact Hwf' | ]. split; [ exact Ho' | ].
        split.
        + rewrite Hp'. change (pos (put chunk s0)) with (v_Pos s0 + length chunk).
          change (pos s0) with (v_Pos s0) in Hp0. rewrite Hp0. lia.
        + rewrite Hd', put_prefix, Hd0 by exact Hwf0.
          rewrite <- app_assoc. f_equal.
          unfold chunk, load.
          replace (written + btw + k) with (k + (written + btw)) by lia.
          rewrite <- (skipn_skipn k (written + btw) buf).
          apply firstn_skipn. }
    unfold bind at 1, get at 1. unfold bind at 1.
    destruct (remaining s =? 0) eqn:Hr; cbn [negb].
    + apply Nat.eqb_eq in Hr.
      set (n := length buf - (written + btw)).
      destruct (grown_owned n s Ho Hwf) as (G1 & G2 & G3 & G4).
      assert (Eo : overflow n s = Ok n (grown n s)).
      { rewrite overflow_grow by (unfold n; lia).
        replace (pos s <=? v_Size (grown n s)) with true
          by (symmetry; apply Nat.leb_le; lia).
        rewrite G4, Nat.ltb_irrefl. reflexivity. }
      unfold bind. rewrite Eo. unfold ret.
      replace (n =? 0) with false
        by (symmetry; apply Nat.eqb_neq; unfold n; lia).
      cbn [negb].
      apply Step.
      * apply grown_wf; [ exact Hwf | unfold n; lia | lia ].
      * unfold owned. now rewrite grown_linked.
      * rewrite G4. unfold n. lia.
      * reflexivity.
      * now apply grown_prefix.
    + apply Nat.eqb_neq in Hr. unfold ret.
      apply Step; try assumption; try reflexivity. lia.
  - (* everything is written *)
    exists s. unfold ret.
    split; [ reflexivity | ]. split; [ exact Hwf | ]. split; [ exact Ho | ].
    split; [ lia | ].
    rewrite skipn_all2 by lia. now rewrite app_nil_r.
Qed.

Lemma grown_view_ge n s : wf s -> pos s <= v_Size (grown n s).
Proof.
  intros (Hp & Hv & Hc).
  destruct (resize_reserve (pos s + n) false (m_Buffer s))
    as (_ & _ & _ & _ & _ & _ & _ & Hsz).
  cbn [grown v_Size]. change (pos s) with (v_Pos s) in *. lia.
Qed.

Lemma grown_owned_remaining n s : owned s -> remaining (grown n s) = n.
Proof.
  intros Ho.
  destruct (resize_reserve (pos s + n) false (m_Buffer s))
    as (_ & _ & _ & Hsz & _).
  specialize (Hsz Ho).
  unfold remaining, Mostream.remaining, Mostream.size, Mostream.pos.
  cbn [to_ostream Mostream.m_Size Mostream.m_Pos grown v_Size v_Pos].
  change (pos s) with (v_Pos s) in *.
  rewrite Hsz. lia.
Qed.

(** With the view in place, [overflow] never fails an assertion. *)
Lemma overflow_wf n s :
  wf s -> remaining s < n ->
  overflow n s =
  if remaining (grown n s) <? n then
    Throw (stream_bounds_exception "write" "text" (pos s) n
             (remaining (grown n s))) (grown n s)
  else Ok (remaining (grown n s)) (grown n s).
Proof.
  intros Hwf Hr. rewrite overflow_grow by exact Hr.
  pose proof (grown_view_ge n s Hwf) as H.
  apply Nat.leb_le in H. now rewrite H.
Qed.

Lemma write_wf buffer s :
  wf s -> remaining s < length buffer ->
  write buffer s =
  if remaining (grown (length buffer) s) <? length buffer then
    Throw (stream_bounds_exception "write" "text" (pos s) (length buffer)
             (remaining (grown (length buffer) s)))
          (grown (length buffer) s)
  else Ok tt (put buffer (grown (length buffer) s)).
Proof.
  intros Hwf Hr. rewrite write_grow by exact Hr. cbv zeta.
  pose proof (grown_view_ge (length buffer) s Hwf) as H.
  apply Nat.leb_le in H. now rewrite H.
Qed.

Lemma put_nil s : put [] s = s.
Proof.
  destruct_stream s. unfold put, advanced, poked.
  cbn [set_buffer m_Buffer mb_Data mb_Size mb_Linked v_Size v_Pos m_Flags
       m_Base m_Precision m_Width m_DecimalSeparator m_ThousandSeparator
       length].
  now rewrite store_nil, Nat.add_0_r.
Qed.

Lemma poked_wf v s :
  wf s -> length v <= remaining s -> wf (poked v s).
Proof.
  intros (Hp & Hv & Hc) Hr.
  unfold remaining, Mostream.remaining, Mostream.size, Mostream.pos in Hr.
  cbn [to_ostream Mostream.m_Size Mostream.m_Pos] in Hr.
  unfold wf, poked.
  cbn [set_buffer v_Pos v_Size m_Buffer mb_Data mb_Size].
  rewrite store_length by lia. repeat split; lia.
Qed.

Lemma load_store_firstn (d : list char) p v k :
  p <= length d -> k <= length v -> load (store d p v) p k = firstn k v.
Proof.
  intros Hp Hk. unfold load, store.
  assert (L : length (firstn p d) = p) by (rewrite length_firstn; lia).
  rewrite skipn_app, L, Nat.sub_diag.
  rewrite (skipn_all2 (firstn p d)) by lia. cbn [skipn app].
  rewrite firstn_app.
  replace (k - length v) with 0 by lia.
  cbn [firstn]. now rewrite app_nil_r.
Qed.

Lemma load_of_prefix (d : list char) p (a v : list char) :
  length a = p -> firstn (p + length v) d = a ++ v ->
  load d p (length v) = v /\ firstn p d = a.
Proof.
  intros La E. split.
  - unfold load. rewrite firstn_skipn_comm, E.
    rewrite skipn_app, La, Nat.sub_diag, skipn_all2 by lia. reflexivity.
  - assert (F : firstn p (firstn (p + length v) d) = firstn p d).
    { rewrite firstn_firstn. f_equal. lia. }
    rewrite <- F, E, firstn_app, La, Nat.sub_diag.
    cbn [firstn]. rewrite firstn_all2 by lia. now rewrite app_nil_r.
Qed.

Lemma stream_skip_ok k s :
  in_size_t size_t_modulus (v_Pos s + k) ->
  v_Pos s + k <= v_Size s ->
  skip size_t_modulus k s = Ok tt (advanced k s).
Proof.
  intros Hm H. unfold skip, base, lift.
  rewrite skip_ok.
  - destruct_stream s. reflexivity.
  - exact Hm.
  - exact H.
Qed.

Lemma snprintf_fits capacity txt :
  length txt < capacity -> fst (snprintf capacity txt) = txt ++ [zero].
Proof.
  intros H. destruct capacity as [ | c]; [ lia | ].
  cbn [snprintf fst]. rewrite firstn_all2 by lia. reflexivity.
Qed.

Lemma snprintf_length capacity txt :
  length (fst (snprintf capacity txt)) <= capacity.
Proof.
  destruct capacity as [ | c]; cbn [snprintf fst length]; [ lia | ].
  rewrite length_app, length_firstn. cbn [length]. lia.
Qed.

Lemma vsnprintf_ipos_eq txt s :
  vsnprintf_ipos txt s =
  Ok (length txt) (poked (fst (snprintf (remaining s) txt)) s).
Proof.
  unfold vsnprintf_ipos, bind, get.
  unfold snprintf at 1. cbv beta iota.
  unfold base, lift, Mostream.poke, modify, ret.
  destruct_stream s. reflexivity.
Qed.

(** [vformat] raises when the growth attempt falls short; the call of
    [skip] is not reached. *)
Lemma vformat_raises txt s :
  wf s -> remaining s <= length txt ->
  let g := grown (length txt + 1)
             (poked (fst (snprintf (remaining s) txt)) s) in
  remaining g < length txt + 1 ->
  vformat size_t_modulus txt s =
  Throw (stream_bounds_exception "write" "text" (pos s) (length txt + 1)
           (remaining g)) g.
Proof.
  intros Hwf Hle. cbv zeta.
  set (s1 := poked (fst (snprintf (remaining s) txt)) s).
  intros Hg.
  assert (Hwf1 : wf s1).
  { apply poked_wf; [ exact Hwf | apply snprintf_length ]. }
  assert (Hr1 : remaining s1 = remaining s) by reflexivity.
  unfold vformat. unfold bind at 1. rewrite vsnprintf_ipos_eq. fold s1.
  unfold bind at 1, get at 1. unfold bind at 1. rewrite Hr1.
  replace (remaining s <=? length txt) with true
    by (symmetry; apply Nat.leb_le; exact Hle).
  unfold bind at 1.
  rewrite overflow_wf by (try exact Hwf1; rewrite Hr1; lia).
  change (pos s1) with (pos s).
  apply Nat.ltb_lt in Hg. now rewrite Hg.
Qed.

(** [vformat] on a state with the view in place, written out; the end of
    the rendered text is a value of [size_t]. *)
Lemma vformat_eq txt s :
  wf s ->
  in_size_t size_t_modulus (pos s + length txt) ->
  vformat size_t_modulus txt s =
  let s1 := poked (fst (snprintf (remaining s) txt)) s in
  if remaining s <=? length txt then
    let g := grown (length txt + 1) s1 in
    if remaining g <? length txt + 1 then
      Throw (stream_bounds_exception "write" "text" (pos s) (length txt + 1)
               (remaining g)) g
    else Ok (length txt) (advanced (length txt) (poked (txt ++ [zero]) g))
  else Ok (length txt) (advanced (length txt) s1).
Proof.
  intros Hwf Hm. cbv zeta.
  set (s1 := poked (fst (snprintf (remaining s) txt)) s).
  assert (Hwf1 : wf s1).
  { apply poked_wf; [ exact Hwf | apply snprintf_length ]. }
  assert (Hr1 : remaining s1 = remaining s) by reflexivity.
  destruct (remaining s <=? length txt) eqn:Hle; leb_props.
  - set (g := grown (length txt + 1) s1).
    destruct (remaining g <? length txt + 1) eqn:Hg; leb_props;
      [ now apply vformat_raises | ].
    unfold vformat. unfold bind at 1. rewrite vsnprintf_ipos_eq. fold s1.
    unfold bind at 1, get at 1. unfold bind at 1. rewrite Hr1.
    replace (remaining s <=? length txt) with true
      by (symmetry; apply Nat.leb_le; exact Hle).
    unfold bind at 1.
    rewrite overflow_wf by (try exact Hwf1; rewrite Hr1; lia).
    change (pos s1) with (pos s). fold g.
    replace (remaining g <? length txt + 1) with false
      by (symmetry; apply Nat.ltb_ge; exact Hg).
    replace (length txt <? remaining g) with true
      by (symmetry; apply Nat.ltb_lt; lia).
    rewrite vsnprintf_ipos_eq, snprintf_fits by lia.
    unfold bind, get.
    change (remaining (poked (txt ++ [zero]) g)) with (remaining g).
    replace (Nat.min (length txt) (remaining g)) with (length txt) by lia.
    rewrite stream_skip_ok; [ reflexivity | exact Hm | ].
    pose proof (grown_view_ge (length txt + 1) s1 Hwf1) as Hv.
    fold g in Hv. revert Hg Hv.
    unfold remaining, Mostream.remaining, Mostream.size, Mostream.pos.
    cbn [to_ostream poked set_buffer v_Pos v_Size Mostream.m_Size
         Mostream.m_Pos].
    change (v_Pos g) with (v_Pos s1). lia.
  - unfold vformat. unfold bind at 1. rewrite vsnprintf_ipos_eq. fold s1.
    unfold bind at 1, get at 1. unfold bind at 1. rewrite Hr1.
    replace (remaining s <=? length txt) with false
      by (symmetry; apply Nat.leb_gt; exact Hle).
    unfold ret, bind, get.
    replace (Nat.min (length txt) (remaining s1)) with (length txt)
      by (rewrite Hr1; lia).
    rewrite stream_skip_ok; [ reflexivity | exact Hm | ].
    destruct Hwf as (Hp & _). revert Hle.
    unfold remaining, Mostream.remaining, Mostream.size, Mostream.pos.
    cbn [to_ostream Mostream.m_Size Mostream.m_Pos].
    change (v_Pos s1) with (v_Pos s). change (v_Size s1) with (v_Size s).
    lia.
Qed.

Lemma write_buffer_owned buf s :
  wf s -> owned s ->
  exists s',
    write_buffer buf s = Ok tt s' /\
    wf s' /\ owned s' /\
    pos s' = pos s + length buf /\
    firstn (pos s') (mb_Data (m_Buffer s')) =
    firstn (pos s) (mb_Data (m_Buffer s)) ++ buf.
Proof.
  intros Hwf Ho.
  destruct (write_buffer_loop_owned (S (length buf)) buf 0 0 s Hwf Ho)
    as (s' & E & Hwf' & Ho' & Hp & Hd); try (cbn; lia).
  exists s'. cbn [Nat.add skipn] in Hp, Hd. rewrite Nat.sub_0_r in Hp.
  auto.
Qed.

(** When the growth attempt falls short, [write_buffer] has filled the room
    there was and raises for the rest. *)
Lemma write_buffer_raises buf s :
  wf s -> remaining s < length buf ->
  let k := remaining s in
  let g := grown (length buf - k) (put (firstn k buf) s) in
  remaining g < length buf - k ->
  write_buffer buf s =
  Throw (stream_bounds_exception "write" "text" (pos s + k) (length buf - k)
           (remaining g)) g.
Proof.
  intros Hwf Hr k g Hg.
  unfold write_buffer. cbn [write_buffer_loop Nat.add].
  replace (0 <? length buf) with true by (symmetry; apply Nat.ltb_lt; lia).
  unfold bind at 1, get at 1. unfold bind at 1.
  destruct (remaining s =? 0) eqn:H0; cbn [negb].
  - apply Nat.eqb_eq in H0.
    assert (Es : put (firstn k buf) s = s).
    { unfold k. rewrite H0. apply put_nil. }
    unfold g in *. rewrite Es in *. unfold k in *. rewrite H0 in *.
    rewrite Nat.sub_0_r, Nat.add_0_r in *.
    unfold bind. rewrite overflow_wf by (try exact Hwf; lia).
    apply Nat.ltb_lt in Hg. now rewrite Hg.
  - apply Nat.eqb_neq in H0. unfold ret, bind at 1, get at 1.
    rewrite Nat.sub_0_r.
    replace (Nat.min (remaining s) (length buf)) with k by (unfold k; lia).
    change (load buf 0 k) with (firstn k buf).
    assert (Lk : length (firstn k buf) = k)
      by (rewrite length_firstn; unfold k; lia).
    unfold bind at 1.
    rewrite write_fit; [ | apply Hwf | rewrite Lk; unfold k; lia ].
    set (s1 := put (firstn k buf) s) in *.
    assert (Hwf1 : wf s1).
    { apply put_wf; [ exact Hwf | rewrite Lk; unfold k; lia ]. }
    assert (Hr1 : remaining s1 = 0).
    { destruct Hwf as (Hp & _). unfold s1.
      unfold remaining, Mostream.remaining, Mostream.size, Mostream.pos.
      cbn [to_ostream put advanced poked set_buffer v_Size v_Pos
           Mostream.m_Size Mostream.m_Pos].
      rewrite Lk. unfold k, remaining, Mostream.remaining, Mostream.size,
        Mostream.pos.
      cbn [to_ostream Mostream.m_Size Mostream.m_Pos]. lia. }
    assert (Hp1 : pos s1 = pos s + k).
    { unfold s1. change (pos (put (firstn k buf) s))
        with (v_Pos s + length (firstn k buf)).
      now rewrite Lk. }
    destruct (length buf) as [ | m] eqn:Lb; [ lia | ].
    cbn [write_buffer_loop Nat.add]. rewrite Lb.
    replace (k <? S m) with true by (symmetry; apply Nat.ltb_lt; lia).
    unfold bind at 1, get at 1. unfold bind at 1.
    rewrite Hr1. cbn [Nat.eqb negb].
    unfold bind at 1.
    rewrite overflow_wf by (try exact Hwf1; rewrite Hr1; lia).
    fold g. apply Nat.ltb_lt in Hg. rewrite Hg, Hp1. reflexivity.
Qed.

Section Uint8.

Variable overflow_default : nat.
Variable c_DefaultAlignment : nat.

Lemma iwrite_uint8_raises v s :
  wf s -> remaining s = 0 ->
  remaining (grown overflow_default s) < overflow_default ->
  iwrite_uint8 size_t_modulus overflow_default c_DefaultAlignment v s =
  Throw (stream_bounds_exception "write" "text" (pos s) overflow_default
           (remaining (grown overflow_default s)))
        (grown overflow_default s).
Proof.
  intros Hwf H0 Hg. unfold iwrite_uint8, bind at 1, get at 1.
  rewrite H0. cbn [Nat.leb]. unfold bind at 1. unfold bind at 1.
  rewrite overflow_wf by (try exact Hwf; lia).
  apply Nat.ltb_lt in Hg. now rewrite Hg.
Qed.

End Uint8.

Lemma flush_eq s :
  flush s = Ok tt (set_buffer s (resize (pos s) (m_Buffer s))).
Proof. reflexivity. Qed.

Lemma firstn_snprintf_buffer txt :
  firstn (Nat.min (length txt) (c_BufSize - 1)) (fst (snprintf c_BufSize txt))
  = firstn (c_BufSize - 1) txt.
Proof.
  unfold c_BufSize. cbn [snprintf fst Nat.sub].
  set (A := firstn 63 txt).
  assert (LA : length A = Nat.min (length txt) 63).
  { unfold A. rewrite length_firstn. lia. }
  rewrite <- LA, firstn_app, Nat.sub_diag, firstn_all.
  cbn [firstn]. apply app_nil_r.
Qed.

Lemma sprintf_iwrite_eq left scientific render typestr is_integer s :
  sprintf_iwrite left scientific render typestr is_integer s =
  write_buffer
    (firstn (c_BufSize - 1)
       (render (fmtstring left scientific typestr is_integer s))) s.
Proof.
  unfold sprintf_iwrite, bind, get.
  set (txt := render (fmtstring left scientific typestr is_integer s)).
  rewrite <- firstn_snprintf_buffer.
  unfold snprintf. reflexivity.
Qed.

Lemma grown_short_data n s :
  remaining (grown n s) < n ->
  mb_Data (m_Buffer (grown n s)) = mb_Data (m_Buffer s).
Proof.
  intros H. destruct (mb_Linked (m_Buffer s)) eqn:Hl.
  - now apply grown_linked_data.
  - rewrite grown_owned_remaining in H by exact Hl. lia.
Qed.

Lemma base_write_never_throws buffer s e s' :
  base (Mostream.write buffer) s <> Throw e s'.
Proof.
  unfold base, lift, Mostream.write, bind, get, assert, Mostream.poke,
    modify.
  destruct (length buffer <=? _); discriminate.
Qed.

Lemma write_throw_inv buffer s e s' :
  write buffer s = Throw e s' ->
  remaining s < length buffer /\
  s' = grown (length buffer) s /\
  remaining s' < length buffer /\
  e = stream_bounds_exception "write" "text" (pos s) (length buffer)
        (remaining s').
Proof.
  destruct (Nat.le_gt_cases (length buffer) (remaining s)) as [H | H].
  - unfold write, bind, get. apply Nat.ltb_ge in H. rewrite H. unfold ret.
    intros E. now apply base_write_never_throws in E.
  - rewrite write_grow by exact H. cbv zeta.
    destruct (_ <=? _); [ | discriminate ].
    destruct (_ <? _) eqn:Hg; [ | discriminate ].
    leb_props. intros E. injection E as <- <-. auto.
Qed.

Lemma constructed_from_string v :
  ostringstream_of_string v = Ok tt (stream_over_string v).
Proof. reflexivity. Qed.

Lemma constructed_from_memory p :
  ostringstream_of_memory p (length p) = Ok tt (stream_over_memory p).
Proof. reflexivity. Qed.

(** The unrolling of [encode_dec] is long enough: more fuel changes
    nothing. *)
Lemma encode_dec_loop_enough fuel : forall n k,
  (n < 2 ^ N.of_nat fuel)%N ->
  encode_dec_loop (S fuel + k) n = encode_dec_loop (S fuel) n.
Proof.
  induction fuel as [ | fuel IH]; intros n k Hn.
  - cbn in Hn. assert (n = 0%N) by lia. subst n. reflexivity.
  - cbn [Nat.add]. cbn [encode_dec_loop]. f_equal.
    destruct (n / 10 =? 0)%N; [ reflexivity | ].
    apply (IH (n / 10)%N k).
    rewrite Nat2N.inj_succ, N.pow_succ_r' in Hn.
    apply N.Div0.div_lt_upper_bound. lia.
Qed.

Lemma encode_dec_fuel fmt n k :
  fmt ++ encode_dec_loop (S (N.to_nat (N.size n)) + k) n = encode_dec fmt n.
Proof.
  unfold encode_dec. f_equal. apply encode_dec_loop_enough.
  rewrite N2Nat.id. apply N.size_gt.
Qed.

Lemma encode_dec_digit fmt n :
  (n < 10)%N -> encode_dec fmt n = fmt ++ decimal n.
Proof.
  intros H. unfold encode_dec. f_equal.
  rewrite <- (N2Nat.id n).
  assert (Hm : N.to_nat n < 10) by lia.
  revert Hm. generalize (N.to_nat n) as m. intros m Hm.
  do 10 (destruct m as [ | m]; [ reflexivity | ]).
  lia.
Qed.

Lemma set_last_app (fmt typestr : list char) c :
  typestr <> [] -> set_last (fmt ++ typestr) c = fmt ++ set_last typestr c.
Proof.
  intros H. unfold set_last.
  rewrite removelast_app by exact H. now rewrite app_assoc.
Qed.

(** With a width and a precision of one digit, [fmtstring] gives the
    format string of the design document. *)
Lemma fmtstring_single_digits left scientific typestr bInteger s :
  (m_Width s < 10)%N -> (m_Precision s < 10)%N -> typestr <> [] ->
  fmtstring left scientific typestr bInteger s =
  fmtstring_spec left scientific typestr bInteger s.
Proof.
  intros Hw Hp Ht. unfold fmtstring, fmtstring_spec.
  rewrite !encode_dec_digit by assumption.
  destruct (m_Width s =? 0)%N, (N.land (m_Flags s) left =? 0)%N,
    (N.land (m_Flags s) scientific =? 0)%N, (m_Base s =? 16)%N,
    (m_Base s =? 8)%N, bInteger;
    cbn [negb];
    rewrite ?set_last_app by exact Ht;
    repeat rewrite <- app_assoc; reflexivity.
Qed.

End OstringstreamFacts.

(** ** The statements of the design document *)

Import Sostream.



(** C8: with the position inside the buffer, [flush] returns, leaves the
    position where it was and gives the buffer exactly the size of the
    position, its content being the former content cut there; a second
    [flush] changes nothing. *)
Theorem flush_truncates_and_is_idempotent (s : ostringstream) :
  pos s <= mb_Size (m_Buffer s) ->
  mb_Size (m_Buffer s) <= length (mb_Data (m_Buffer s)) ->
  exists s',
    flush s = Ok tt s' /\
    pos s' = pos s /\
    mb_Size (m_Buffer s') = pos s /\
    content (m_Buffer s') = firstn (pos s) (content (m_Buffer s)) /\
    flush s' = Ok tt s'.
Proof.
  intros Hp Hc.
  assert (Hcap : pos s <= length (mb_Data (m_Buffer s))) by lia.
  exists (set_buffer s (resize (pos s) (m_Buffer s))).
  rewrite !flush_eq.
  change (pos (set_buffer s (resize (pos s) (m_Buffer s)))) with (pos s).
  cbn [set_buffer m_Buffer].
  rewrite resize_within by exact Hcap.
  rewrite resize_within by exact Hcap.
  cbn [mb_Data mb_Size mb_Linked].
  split; [ reflexivity | ]. split; [ reflexivity | ].
  split; [ reflexivity | ]. split; [ | reflexivity ].
  unfold content. cbn [mb_Data mb_Size].
  rewrite firstn_firstn. f_equal. lia.
Qed.

Lemma flush_truncates_and_is_idempotent_witness :
  exists s',
    flush (advanced 2 (stream_over_string (text "abcde"))) = Ok tt s' /\
    pos s' = 2 /\
    mb_Size (m_Buffer s') = 2 /\
    content (m_Buffer s') = text "ab" /\
    flush s' = Ok tt s'.
Proof.
  apply (flush_truncates_and_is_idempotent
           (advanced 2 (stream_over_string (text "abcde")))).
  - vm_compute. lia.
  - vm_compute. lia.
Defined.

(** C9: when [write] raises, the exception is the bounds failure of
    [overflow] for the whole size; the position is the one before the call
    and the block is byte for byte the one before the call. *)
Theorem write_failure_is_atomic
  (buffer : list char) (s s' : ostringstream) (e : exn) :
  write buffer s = Throw e s' ->
  pos s' = pos s /\
  mb_Data (m_Buffer s') = mb_Data (m_Buffer s) /\
  e = stream_bounds_exception "write" "text" (pos s) (length buffer)
        (remaining s').
Proof.
  intros E. apply write_throw_inv in E as (Hr & -> & Hg & ->).
  repeat split. now apply grown_short_data.
Qed.

Lemma write_failure_is_atomic_witness :
  let s := stream_over_memory (text "ab") in
  let e := stream_bounds_exception "write" "text" 0 3 2 in
  write (text "xyz") s = Throw e s /\
  pos s = pos s /\
  mb_Data (m_Buffer s) = mb_Data (m_Buffer s) /\
  e = stream_bounds_exception "write" "text" (pos s) (length (text "xyz"))
        (remaining s).
Proof.
  intros s e.
  assert (H : write (text "xyz") s = Throw e s) by reflexivity.
  split; [ exact H | ].
  apply (write_failure_is_atomic (text "xyz") s s e H).
Defined.

(** C1, as the code has it: with the view in place, a write whose size
    still exceeds remaining () after the growth attempt of [overflow] does
    not return.  [write] raises the bounds failure ("write", "text",
    position, requested size, remaining) with position and block as before
    the call; [write_buffer] raises it for the part that is left once it has
    filled the room there was; the single-character [iwrite] raises it for
    the default request of [overflow]; and [vformat] raises the same failure
    for the rendered size plus one. *)
Theorem raw_writes_raise_the_bounds_failure
  (size_t_modulus : N) (overflow_default c_DefaultAlignment : nat)
  (buffer txt : list char) (v : char) (s : ostringstream) :
  wf s ->
  (remaining s < length buffer ->
   remaining (grown (length buffer) s) < length buffer ->
   write buffer s =
     Throw (stream_bounds_exception "write" "text" (pos s) (length buffer)
              (remaining (grown (length buffer) s)))
           (grown (length buffer) s) /\
   pos (grown (length buffer) s) = pos s /\
   mb_Data (m_Buffer (grown (length buffer) s)) = mb_Data (m_Buffer s)) /\
  (remaining s < length buffer ->
   let k := remaining s in
   let g := grown (length buffer - k) (put (firstn k buffer) s) in
   remaining g < length buffer - k ->
   write_buffer buffer s =
     Throw (stream_bounds_exception "write" "text" (pos s + k)
              (length buffer - k) (remaining g)) g) /\
  (remaining s = 0 ->
   remaining (grown overflow_default s) < overflow_default ->
   iwrite_uint8 size_t_modulus overflow_default c_DefaultAlignment v s =
     Throw (stream_bounds_exception "write" "text" (pos s) overflow_default
              (remaining (grown overflow_default s)))
           (grown overflow_default s)) /\
  (remaining s <= length txt ->
   let g := grown (length txt + 1)
              (poked (fst (snprintf (remaining s) txt)) s) in
   remaining g < length txt + 1 ->
   vformat size_t_modulus txt s =
     Throw (stream_bounds_exception "write" "text" (pos s) (length txt + 1)
              (remaining g)) g).
Proof.
  intros Hwf. split; [ | split; [ | split ] ].
  - intros Hr Hg. split; [ | split ].
    + rewrite write_wf by assumption.
      apply Nat.ltb_lt in Hg. now rewrite Hg.
    + reflexivity.
    + now apply grown_short_data.
  - intros Hr k g Hg. now apply write_buffer_raises.
  - intros H0 Hg. now apply iwrite_uint8_raises.
  - intros Hr g Hg. now apply vformat_raises.
Qed.

(** A stream over two bytes of external memory that is full: each of the
    four calls raises. *)
Lemma raw_writes_raise_the_bounds_failure_witness :
  let s := advanced 2 (stream_over_memory (text "ab")) in
  write (text "xyz") s =
    Throw (stream_bounds_exception "write" "text" 2 3 0) s /\
  write_buffer (text "xyz") s =
    Throw (stream_bounds_exception "write" "text" 2 3 0) s /\
  iwrite_uint8 (2 ^ 64) 1 4 "x"%char s =
    Throw (stream_bounds_exception "write" "text" 2 1 0) s /\
  vformat (2 ^ 64) (text "xyz") s =
    Throw (stream_bounds_exception "write" "text" 2 4 0) s.
Proof.
  intros s.
  assert (Hwf : wf s) by (unfold wf; cbn; lia).
  destruct (raw_writes_raise_the_bounds_failure (2 ^ 64) 1 4
              (text "xyz") (text "xyz") "x"%char s Hwf)
    as (W & B & I & F).
  split; [ | split; [ | split ] ].
  - apply W; vm_compute; lia.
  - apply B; vm_compute; lia.
  - apply I; vm_compute; lia.
  - apply F; vm_compute; lia.
Defined.

(** C1 as stated fails: over two bytes of external memory, a write of three
    bytes is not a silent return that leaves the stream as it was: it
    raises, as the formatted path does. *)
Lemma raw_write_is_not_silent :
  let s := stream_over_memory (text "ab") in
  remaining (grown 3 s) < 3 /\
  write (text "xyz") s <> Ok tt s /\
  write (text "xyz") s =
    Throw (stream_bounds_exception "write" "text" 0 3 2) s /\
  write_buffer (text "xyz") s =
    Throw (stream_bounds_exception "write" "text" 2 1 0)
          (put (text "xy") s).
Proof.
  cbv zeta. split; [ vm_compute; lia | ].
  split; [ discriminate | ]. split; reflexivity.
Qed.

(** C3, as the code has it: with the view in place, [vformat] first renders
    into the remaining space.  If the rendered size is below remaining ()
    that is all, and the position advances by the rendered size.  If it
    meets or exceeds remaining (), [overflow] is asked for the rendered size
    plus one; when that returns the text is rendered once more, now whole,
    and the position advances by the rendered size; when it cannot give the
    room it raises the bounds failure and the position stays.  So a call
    that returns has written the whole text, never a truncated one.  Where
    the position advances, the new position is a value of [size_t]. *)
Theorem vformat_renders_whole_text_or_raises
  (size_t_modulus : N) (txt : list char) (s : ostringstream) :
  wf s ->
  (in_size_t size_t_modulus (pos s + length txt) ->
   length txt < remaining s ->
   vformat size_t_modulus txt s =
     Ok (length txt) (advanced (length txt) (poked (txt ++ [zero]) s))) /\
  (remaining s <= length txt ->
   let g := grown (length txt + 1)
              (poked (fst (snprintf (remaining s) txt)) s) in
   (in_size_t size_t_modulus (pos s + length txt) ->
    length txt + 1 <= remaining g ->
    vformat size_t_modulus txt s =
      Ok (length txt) (advanced (length txt) (poked (txt ++ [zero]) g))) /\
   (remaining g < length txt + 1 ->
    vformat size_t_modulus txt s =
      Throw (stream_bounds_exception "write" "text" (pos s)
               (length txt + 1) (remaining g)) g /\
    pos g = pos s)) /\
  (in_size_t size_t_modulus (pos s + length txt) ->
   forall rv s',
   vformat size_t_modulus txt s = Ok rv s' ->
   rv = length txt /\
   pos s' = pos s + length txt /\
   load (mb_Data (m_Buffer s')) (pos s) (length txt) = txt /\
   pos s' < v_Size s').
Proof.
  intros Hwf.
  pose proof (vformat_eq size_t_modulus txt s Hwf) as E. cbv zeta in E.
  set (s1 := poked (fst (snprintf (remaining s) txt)) s) in *.
  assert (Hwf1 : wf s1).
  { apply poked_wf; [ exact Hwf | apply snprintf_length ]. }
  set (g := grown (length txt + 1) s1) in *.
  assert (Whole : forall x,
    wf x -> pos x = pos s -> length txt < remaining x ->
    pos (advanced (length txt) (poked (txt ++ [zero]) x)) =
      pos s + length txt /\
    load (mb_Data (m_Buffer (advanced (length txt)
                               (poked (txt ++ [zero]) x))))
         (pos s) (length txt) = txt /\
    pos (advanced (length txt) (poked (txt ++ [zero]) x)) <
      v_Size (advanced (length txt) (poked (txt ++ [zero]) x))).
  { intros x (Hp & Hv & Hc) Hpx Hrx. rewrite <- Hpx.
    revert Hrx.
    unfold pos, remaining, Mostream.remaining, Mostream.size, Mostream.pos.
    cbn [to_ostream advanced poked set_buffer m_Buffer mb_Data v_Pos v_Size
         Mostream.m_Size Mostream.m_Pos].
    intros Hrx. split; [ reflexivity | ]. split; [ | lia ].
    rewrite load_store_firstn.
    - rewrite firstn_app, Nat.sub_diag, firstn_all. cbn [firstn].
      apply app_nil_r.
    - lia.
    - rewrite length_app. lia. }
  split; [ | split ].
  - intros Hm Hr. rewrite E by exact Hm.
    replace (remaining s <=? length txt) with false
      by (symmetry; apply Nat.leb_gt; exact Hr).
    unfold s1. now rewrite snprintf_fits by exact Hr.
  - intros Hr. split.
    + intros Hm Hg. specialize (E Hm).
      apply Nat.leb_le in Hr. rewrite Hr in E.
      replace (remaining g <? length txt + 1) with false in E
        by (symmetry; apply Nat.ltb_ge; exact Hg).
      exact E.
    + intros Hg.
      split; [ now apply vformat_raises | reflexivity ].
  - intros Hm rv s' Eq. rewrite E in Eq by exact Hm.
    destruct (remaining s <=? length txt) eqn:Hr; leb_props.
    + destruct (remaining g <? length txt + 1) eqn:Hg; [ discriminate | ].
      leb_props. injection Eq as <- <-.
      split; [ reflexivity | ].
      apply Whole.
      * apply grown_wf; [ exact Hwf1 | | apply grown_view_ge; exact Hwf1 ].
        change (remaining s1) with (remaining s). lia.
      * reflexivity.
      * lia.
    + injection Eq as <- <-.
      split; [ reflexivity | ].
      unfold s1. rewrite snprintf_fits by exact Hr.
      apply Whole; [ exact Hwf | reflexivity | exact Hr ].
Qed.

(** Five characters formatted into an owned buffer of four: the buffer
    grows and the five characters are there; formatted over four bytes of
    external memory the call raises; three characters fit at once. *)
Lemma vformat_renders_whole_text_or_raises_witness :
  let s := stream_over_string (text "abcd") in
  let m := stream_over_memory (text "abcd") in
  (exists s',
     vformat (2 ^ 64) (text "hello") s = Ok 5 s' /\
     pos s' = 5 /\
     load (mb_Data (m_Buffer s')) 0 5 = text "hello" /\
     pos s' < v_Size s') /\
  vformat (2 ^ 64) (text "hello") m =
    Throw (stream_bounds_exception "write" "text" 0 6 4)
          (poked (text "hel" ++ [zero]) m) /\
  vformat (2 ^ 64) (text "hey") m =
    Ok 3 (advanced 3 (poked (text "hey" ++ [zero]) m)).
Proof.
  intros s m.
  assert (Hs : wf s) by (unfold wf; cbn; lia).
  assert (Hm : wf m) by (unfold wf; cbn; lia).
  split; [ | split ].
  - destruct (vformat_renders_whole_text_or_raises (2 ^ 64)
                (text "hello") s Hs)
      as (_ & _ & H).
    eexists. split; [ reflexivity | ].
    apply (H eq_refl 5 _ eq_refl).
  - destruct (vformat_renders_whole_text_or_raises (2 ^ 64)
                (text "hello") m Hm)
      as (_ & H & _).
    apply H; vm_compute; lia.
  - destruct (vformat_renders_whole_text_or_raises (2 ^ 64)
                (text "hey") m Hm)
      as (H & _ & _).
    apply H; [ reflexivity | vm_compute; lia ].
Defined.

(** C3 as stated fails: five characters formatted over four bytes of
    external memory do not end with the four bytes that remain written and
    the position advanced by four: the call raises and the position is the
    old one. *)
Lemma vformat_does_not_truncate :
  let s := stream_over_memory (text "abcd") in
  let s' := poked (text "hel" ++ [zero]) s in
  vformat (2 ^ 64) (text "hello") s =
    Throw (stream_bounds_exception "write" "text" 0 6 4) s' /\
  pos s' = pos s /\
  pos s' <> pos s + remaining s.
Proof.
  cbv zeta. split; [ reflexivity | ]. split; [ reflexivity | ].
  vm_compute. discriminate.
Qed.

(** C10: a value written through [sprintf_iwrite] reaches the stream as the
    first 63 bytes at most of the text the C library renders it to under
    the format of [fmtstring]: on an owned buffer the call returns with
    exactly those bytes written at the old position and the position
    advanced by their number, min (length of the rendering, 63). *)
Theorem sprintf_iwrite_forwards_at_most_63_bytes
  (left scientific : N) (render : list char -> list char)
  (typestr : list char) (is_integer : bool) (s : ostringstream) :
  wf s -> owned s ->
  let txt := render (fmtstring left scientific typestr is_integer s) in
  sprintf_iwrite left scientific render typestr is_integer s =
    write_buffer (firstn 63 txt) s /\
  exists s',
    sprintf_iwrite left scientific render typestr is_integer s = Ok tt s' /\
    pos s' = pos s + Nat.min (length txt) 63 /\
    load (mb_Data (m_Buffer s')) (pos s) (Nat.min (length txt) 63) =
      firstn 63 txt.
Proof.
  intros Hwf Ho txt.
  pose proof (sprintf_iwrite_eq left scientific render typestr is_integer s)
    as E.
  fold txt in E. change (c_BufSize - 1) with 63 in E.
  split; [ exact E | ].
  destruct (write_buffer_owned (firstn 63 txt) s Hwf Ho)
    as (s' & Ew & _ & _ & Hp & Hd).
  assert (L : length (firstn 63 txt) = Nat.min (length txt) 63)
    by (rewrite length_firstn; lia).
  exists s'. rewrite E. split; [ exact Ew | ].
  rewrite <- L. split; [ exact Hp | ].
  assert (La : length (firstn (pos s) (mb_Data (m_Buffer s))) = pos s).
  { destruct Hwf as (H1 & H2 & H3). change (pos s) with (v_Pos s).
    rewrite length_firstn. lia. }
  rewrite Hp in Hd.
  apply (load_of_prefix (mb_Data (m_Buffer s')) (pos s) _ _ La Hd).
Qed.

(** A rendering of 70 characters: 63 of them reach the stream. *)
Lemma sprintf_iwrite_forwards_at_most_63_bytes_witness :
  let s := stream_over_string [] in
  let render := fun _ : list char => repeat "7"%char 70 in
  sprintf_iwrite 32 256 render (text "d") true s =
    write_buffer (repeat "7"%char 63) s /\
  exists s',
    sprintf_iwrite 32 256 render (text "d") true s = Ok tt s' /\
    pos s' = 63 /\
    load (mb_Data (m_Buffer s')) 0 63 = repeat "7"%char 63.
Proof.
  intros s render.
  apply (sprintf_iwrite_forwards_at_most_63_bytes 32 256 render (text "d")
           true s).
  - unfold wf. cbn. lia.
  - reflexivity.
Defined.

(** C4 at a width of 12 and at a precision of 10: [encode_dec] writes the
    least significant digit first, so the format string has the digits of
    the number backwards where the design document has the decimal
    number. *)
Theorem fmtstring_writes_decimal_digits_backwards (left scientific : N) :
  let wide := mk_ostringstream (memblock_of_string []) 0 0 0 10 2 12
                "."%char ","%char in
  let precise := mk_ostringstream (memblock_of_string []) 0 0 0 10 10 0
                   "."%char ","%char in
  fmtstring left scientific (text "d") true wide = text "%21d" /\
  fmtstring_spec left scientific (text "d") true wide = text "%12d" /\
  fmtstring left scientific (text "f") false precise = text "%.01f" /\
  fmtstring_spec left scientific (text "f") false precise = text "%.10f".
Proof.
  cbv zeta. repeat split.
Qed.

(** C5 at the string "abc": the constructor links the view to the buffer
    and leaves the position of the base at 0, so the first write goes over
    the first byte; [str] of the same string seeks to the end. *)
Theorem constructor_from_string_leaves_position_at_start :
  ostringstream_of_string (text "abc") =
    Ok tt (stream_over_string (text "abc")) /\
  pos (stream_over_string (text "abc")) = 0 /\
  (exists s',
     write (text "X") (stream_over_string (text "abc")) = Ok tt s' /\
     pos s' = 1 /\
     content (m_Buffer s') = text "Xbc") /\
  (exists s',
     str (text "abc") (init (mk_memblock [] 0 false)) = Ok tt s' /\
     pos s' = 3 /\
     content (m_Buffer s') = text "abc").
Proof.
  split; [ reflexivity | ]. split; [ reflexivity | ].
  split; eexists; (split; [ reflexivity | split; reflexivity ]).
Qed.

(** * Further properties of the two classes *)

(** ** The binary cursor *)

Lemma Align_multiple n grain :
  0 < grain ->
  Mostream.Align n grain mod grain = 0 /\
  n <= Mostream.Align n grain < n + grain.
Proof.
  intros Hg. unfold Mostream.Align.
  split; [ apply Nat.Div0.mod_mul | ].
  pose proof (Nat.div_mod_eq (n + grain - 1) grain) as E.
  pose proof (Nat.mod_upper_bound (n + grain - 1) grain) as B.
  nia.
Qed.

Lemma load_app_two (d : list char) p a b :
  load d p a ++ load d (p + a) b = load d p (a + b).
Proof.
  unfold load. replace (p + a) with (a + p) by lia.
  rewrite <- (skipn_skipn a p d).
  generalize (skipn p d) as l.
  induction a as [ | a IH]; intros l.
  - reflexivity.
  - destruct l as [ | x l]; cbn [Nat.add firstn skipn app].
    + now rewrite firstn_nil.
    + f_equal. apply IH.
Qed.

(** The sum of [size_t] is associative. *)
Lemma size_t_add_assoc (modulus : N) (p a b : nat) :
  size_t_add modulus (size_t_add modulus p a) b =
  size_t_add modulus p (size_t_add modulus a b).
Proof.
  unfold size_t_add. rewrite !N2Nat.id. f_equal.
  rewrite N.Div0.add_mod_idemp_l, N.Div0.add_mod_idemp_r.
  now rewrite N.add_assoc.
Qed.

(** X1: two skips in a row, when the first one returns, are one skip of the
    sum of the two counts taken in [size_t], whether that returns or fails
    the assertion of [seek]; when the first one fails its assertion so do
    the two. *)
Theorem skip_twice_is_skip_of_sum
  (size_t_modulus : N) (a b : nat) (os : Mostream.ostream) :
  (Mostream.skip size_t_modulus a ;; Mostream.skip size_t_modulus b) os =
  if size_t_add size_t_modulus (Mostream.pos os) a <=? Mostream.size os
  then Mostream.skip size_t_modulus (size_t_add size_t_modulus a b) os
  else AssertFail.
Proof.
  unfold bind. rewrite !skip_is_seek.
  destruct (size_t_add size_t_modulus (Mostream.pos os) a
            <=? Mostream.size os) eqn:H; leb_props.
  - rewrite (seek_ok _ os H), skip_is_seek.
    change (Mostream.pos (Mostream.set_pos os
              (size_t_add size_t_modulus (Mostream.pos os) a)))
      with (size_t_add size_t_modulus (Mostream.pos os) a).
    rewrite size_t_add_assoc.
    set (n := size_t_add size_t_modulus (Mostream.pos os)
                (size_t_add size_t_modulus a b)).
    destruct (Nat.le_gt_cases n (Mostream.size os)) as [H' | H'].
    + rewrite !seek_ok by assumption. reflexivity.
    + rewrite !seek_fail by assumption. reflexivity.
  - now rewrite seek_fail.
Qed.

(** With a [size_t] of 8 bits, at position 5 of eight bytes: a skip of 2
    and then one of 255, whose sum wraps around, end at position 6, as the
    one skip of 1 does. *)
Lemma skip_twice_is_skip_of_sum_witness :
  let os := Mostream.mk_ostream (repeat Sostream.zero 8) 8 5 in
  (Mostream.skip 256 2 ;; Mostream.skip 256 255) os =
    Mostream.skip 256 1 os /\
  Mostream.skip 256 1 os = Ok tt (Mostream.set_pos os 6).
Proof.
  intros os. split.
  - exact (skip_twice_is_skip_of_sum 256 2 255 os).
  - reflexivity.
Defined.

(** The first skip has to return: at position 5 of eight bytes a skip of 4
    fails the assertion, and so do the two skips, while the one skip of the
    sum of 4 and 247 wraps around to position 0 and returns. *)
Example two_skips_fail_where_their_sum_wraps :
  let os := Mostream.mk_ostream (repeat Sostream.zero 8) 8 5 in
  (Mostream.skip 256 4 ;; Mostream.skip 256 247) os = AssertFail /\
  Mostream.skip 256 (size_t_add 256 4 247) os =
    Ok tt (Mostream.set_pos os 0).
Proof. split; reflexivity. Qed.

(** X18: the count handed to [skip] is any value of [size_t]: a skip of
    SIZE_MAX from a position inside the view that is not the start does not
    fail the assertion of [seek]; the sum wraps around, the call returns
    and the position is one byte back, with the size and the bytes as they
    were. *)
Theorem skip_of_size_max_steps_back
  (size_t_modulus : N) (os : Mostream.ostream) :
  in_size_t size_t_modulus (Mostream.pos os) ->
  0 < Mostream.pos os <= Mostream.size os ->
  exists os',
    Mostream.skip size_t_modulus (N.to_nat (size_t_modulus - 1)) os =
      Ok tt os' /\
    Mostream.pos os' = Mostream.pos os - 1 /\
    Mostream.size os' = Mostream.size os /\
    Mostream.m_Data os' = Mostream.m_Data os.
Proof.
  unfold in_size_t. intros Hm Hp.
  assert (E : size_t_add size_t_modulus (Mostream.pos os)
                (N.to_nat (size_t_modulus - 1)) = Mostream.pos os - 1).
  { unfold size_t_add. rewrite N2Nat.id.
    replace (N.of_nat (Mostream.pos os) + (size_t_modulus - 1))%N
      with (N.of_nat (Mostream.pos os - 1) + 1 * size_t_modulus)%N by lia.
    rewrite N.Div0.mod_add, N.mod_small by lia.
    apply Nat2N.id. }
  exists (Mostream.set_pos os (Mostream.pos os - 1)).
  split; [ | split; [ reflexivity | split; reflexivity ] ].
  rewrite skip_is_seek, E. apply seek_ok. lia.
Qed.

(** With a [size_t] of 64 bits, on eight bytes: after seek (1), a skip of
    SIZE_MAX returns with the position at 0. *)
Lemma skip_of_size_max_steps_back_witness :
  let os := Mostream.mk_ostream (repeat Sostream.zero 8) 8 1 in
  exists os',
    Mostream.skip (2 ^ 64) (N.to_nat (2 ^ 64 - 1)) os = Ok tt os' /\
    Mostream.pos os' = 0 /\
    Mostream.size os' = 8 /\
    Mostream.m_Data os' = repeat Sostream.zero 8.
Proof.
  intros os.
  apply (skip_of_size_max_steps_back (2 ^ 64) os).
  - reflexivity.
  - simpl. lia.
Defined.

(** X2: with a grain that is not zero, [align] that returns leaves the
    position aligned on the grain, at the first multiple of the grain from
    the old position on; it writes nothing and keeps the size.  It fails the
    assertion of [seek] when that multiple lies beyond the size. *)
Theorem align_moves_to_next_multiple
  (grain : nat) (os : Mostream.ostream) :
  0 < grain ->
  (forall os',
     Mostream.align grain os = Ok tt os' ->
     Mostream.aligned grain os' = true /\
     Mostream.pos os <= Mostream.pos os' < Mostream.pos os + grain /\
     Mostream.m_Data os' = Mostream.m_Data os /\
     Mostream.size os' = Mostream.size os) /\
  (Mostream.size os < Mostream.Align (Mostream.pos os) grain ->
   Mostream.align grain os = AssertFail).
Proof.
  intros Hg.
  destruct (Align_multiple (Mostream.pos os) grain Hg) as [Hm Hb].
  split.
  - intros os' E. unfold Mostream.align, bind, get in E.
    apply seek_inv in E as [_ ->].
    unfold Mostream.aligned.
    change (Mostream.pos (Mostream.set_pos os
                            (Mostream.Align (Mostream.pos os) grain)))
      with (Mostream.Align (Mostream.pos os) grain).
    rewrite Hm. repeat split; lia.
  - intros H. unfold Mostream.align, bind, get. now apply seek_fail.
Qed.

Lemma align_moves_to_next_multiple_witness :
  let os := Mostream.mk_ostream (repeat Sostream.zero 8) 8 5 in
  Mostream.align 4 os = Ok tt (Mostream.set_pos os 8) /\
  Mostream.aligned 4 (Mostream.set_pos os 8) = true /\
  Mostream.align 16 os = AssertFail.
Proof.
  intros os.
  destruct (align_moves_to_next_multiple 4 os) as [H _]; [ lia | ].
  destruct (align_moves_to_next_multiple 16 os) as [_ F]; [ lia | ].
  split; [ reflexivity | ]. split.
  - apply (H (Mostream.set_pos os 8) eq_refl).
  - apply F. vm_compute. lia.
Defined.

(** X3: a typed write at a position that is not aligned on
    min (sizeof (T), default alignment), or with less room than sizeof (T),
    fails its assertion: the call does not return and stores nothing. *)
Theorem iwrite_checks_alignment_and_room
  (size_t_modulus : N) (c_DefaultAlignment : nat) (v : list char)
  (os : Mostream.ostream) :
  Mostream.aligned (Nat.min (length v) c_DefaultAlignment) os = false \/
  Mostream.remaining os < length v ->
  Mostream.iwrite size_t_modulus c_DefaultAlignment v os = AssertFail.
Proof.
  intros H. unfold Mostream.iwrite, bind, get, assert.
  replace (if length v <? c_DefaultAlignment then length v
           else c_DefaultAlignment)
    with (Nat.min (length v) c_DefaultAlignment)
    by (destruct (Nat.ltb_spec (length v) c_DefaultAlignment); lia).
  destruct (Mostream.aligned _ os); [ | reflexivity ].
  destruct H as [H | H]; [ discriminate | ].
  apply Nat.leb_gt in H. now rewrite H.
Qed.

(** Position 1, grain 4, a value of four bytes; and position 4 of a buffer
    of six. *)
Lemma iwrite_checks_alignment_and_room_witness :
  let v := Mostream.int_repr Mostream.LittleEndian 4 1234 in
  Mostream.iwrite (2 ^ 64) 4 v
    (Mostream.mk_ostream (repeat Sostream.zero 8) 8 1) = AssertFail /\
  Mostream.iwrite (2 ^ 64) 4 v
    (Mostream.mk_ostream (repeat Sostream.zero 6) 6 4) = AssertFail.
Proof.
  intros v. split.
  - apply iwrite_checks_alignment_and_room. left. reflexivity.
  - apply iwrite_checks_alignment_and_room. right. vm_compute. lia.
Defined.

(** X4: values of one size, not larger than the default alignment, can be
    written back to back: after the first typed write the position is
    aligned for the second, and the two representations lie one after the
    other from the old position on.  The position reached is a value of
    [size_t]. *)
Theorem iwrite_twice_back_to_back
  (size_t_modulus : N) (c_DefaultAlignment : nat) (v w : list char)
  (os : Mostream.ostream) :
  in_size_t size_t_modulus (Mostream.pos os + (length v + length w)) ->
  Mostream.wf os ->
  length w = length v ->
  length v <= c_DefaultAlignment ->
  Mostream.aligned (length v) os = true ->
  length v + length w <= Mostream.remaining os ->
  exists os',
    (Mostream.iwrite size_t_modulus c_DefaultAlignment v ;;
     Mostream.iwrite size_t_modulus c_DefaultAlignment w) os = Ok tt os' /\
    Mostream.pos os' = Mostream.pos os + (length v + length w) /\
    Mostream.aligned (length v) os' = true /\
    load (Mostream.m_Data os') (Mostream.pos os) (length v + length w) =
      v ++ w.
Proof.
  intros Hm [Hp Hs] Hw Hda Ha Hr.
  assert (Hmin : Nat.min (length v) c_DefaultAlignment = length v) by lia.
  assert (Hstep : forall p, p mod length v = 0 ->
                            (p + length v) mod length v = 0).
  { intros p E. rewrite Nat.Div0.add_mod, E, Nat.Div0.mod_same.
    cbn [Nat.add]. apply Nat.Div0.mod_0_l. }
  unfold Mostream.aligned in Ha. apply Nat.eqb_eq in Ha.
  unfold Mostream.remaining, Mostream.size, Mostream.pos in *.
  unfold bind.
  rewrite iwrite_ok;
    [ | eapply in_size_t_le; [ | exact Hm ]; unfold Mostream.pos; lia
      | exact Hp
      | rewrite Hmin; unfold Mostream.aligned; now apply Nat.eqb_eq
      | unfold Mostream.remaining, Mostream.size, Mostream.pos; lia ].
  rewrite iwrite_ok;
    [ | eapply in_size_t_le; [ | exact Hm ]; unfold Mostream.pos;
        cbn [Mostream.m_Pos]; lia
      | unfold Mostream.size, Mostream.pos; cbn; lia
      | rewrite Hw, Hmin; unfold Mostream.aligned, Mostream.pos; cbn;
        apply Nat.eqb_eq; now apply Hstep
      | unfold Mostream.remaining, Mostream.size, Mostream.pos; cbn; lia ].
  eexists. split; [ reflexivity | ].
  unfold Mostream.aligned, Mostream.pos.
  cbn [Mostream.m_Pos Mostream.m_Data Mostream.m_Size].
  split; [ lia | ]. split.
  - apply Nat.eqb_eq. rewrite Hw. now apply Hstep, Hstep.
  - rewrite <- load_app_two. f_equal.
    + unfold load.
      rewrite <- (Nat.add_0_r (length v)) at 1.
      set (d1 := store (Mostream.m_Data os) (Mostream.m_Pos os) v).
      assert (L1 : length d1 = length (Mostream.m_Data os))
        by (apply store_length; lia).
      assert (P : firstn (Mostream.m_Pos os + length v)
                    (store d1 (Mostream.m_Pos os + length v) w) =
                  firstn (Mostream.m_Pos os + length v) d1)
        by (apply store_firstn; lia).
      rewrite Nat.add_0_r.
      rewrite firstn_skipn_comm, P, <- firstn_skipn_comm.
      apply (load_store (Mostream.m_Data os) (Mostream.m_Pos os) v). lia.
    + apply load_store.
      rewrite store_length by lia. lia.
Qed.

Lemma iwrite_twice_back_to_back_witness :
  let v := Mostream.int_repr Mostream.LittleEndian 2 258 in
  let w := Mostream.int_repr Mostream.LittleEndian 2 772 in
  let os := Mostream.mk_ostream (repeat Sostream.zero 8) 8 2 in
  exists os',
    (Mostream.iwrite (2 ^ 64) 4 v ;; Mostream.iwrite (2 ^ 64) 4 w) os =
      Ok tt os' /\
    Mostream.pos os' = Mostream.pos os + (length v + length w) /\
    Mostream.aligned (length v) os' = true /\
    load (Mostream.m_Data os') (Mostream.pos os) (length v + length w) =
      v ++ w.
Proof.
  intros v w os.
  apply (iwrite_twice_back_to_back (2 ^ 64) 4 v w os).
  - reflexivity.
  - split; cbn; lia.
  - reflexivity.
  - cbn. lia.
  - reflexivity.
  - vm_compute. lia.
Defined.

(** ** The text stream: what the calls append *)

Lemma store_prefix_part (d : list char) p v k :
  p <= length d -> k <= length v ->
  firstn (p + k) (store d p v) = firstn p d ++ firstn k v.
Proof.
  intros Hp Hk. unfold store.
  assert (L : length (firstn p d) = p) by (rewrite length_firstn; lia).
  rewrite firstn_app, L.
  rewrite (firstn_all2 (firstn p d)) by lia.
  replace (p + k - p) with k by lia.
  rewrite firstn_app.
  replace (k - length v) with 0 by lia.
  cbn [firstn]. now rewrite app_nil_r.
Qed.

Lemma store_nth_error (d : list char) p v i :
  p <= length d -> i < length v ->
  nth_error (store d p v) (p + i) = nth_error v i.
Proof.
  intros Hp Hi. unfold store.
  assert (L : length (firstn p d) = p) by (rewrite length_firstn; lia).
  rewrite nth_error_app2 by lia. rewrite L.
  replace (p + i - p) with i by lia.
  now rewrite nth_error_app1 by lia.
Qed.

Lemma write_owned buffer s :
  wf s -> owned s ->
  exists s',
    write buffer s = Ok tt s' /\
    wf s' /\ owned s' /\
    pos s' = pos s + length buffer /\
    firstn (pos s') (mb_Data (m_Buffer s')) =
    firstn (pos s) (mb_Data (m_Buffer s)) ++ buffer.
Proof.
  intros Hwf Ho.
  destruct (Nat.le_gt_cases (length buffer) (remaining s)) as [H | H].
  - exists (put buffer s).
    split; [ apply write_fit; [ apply Hwf | exact H ] | ].
    split; [ now apply put_wf | ]. split; [ exact Ho | ].
    split; [ reflexivity | now apply put_prefix ].
  - destruct (grown_owned (length buffer) s Ho Hwf) as (G1 & G2 & G3 & G4).
    assert (Hg : wf (grown (length buffer) s)).
    { apply grown_wf; [ exact Hwf | exact H | now apply grown_view_ge ]. }
    exists (put buffer (grown (length buffer) s)).
    split.
    { rewrite write_wf by assumption. now rewrite G4, Nat.ltb_irrefl. }
    split; [ apply put_wf; [ exact Hg | lia ] | ].
    split.
    { unfold owned.
      change (mb_Linked (m_Buffer (put buffer (grown (length buffer) s))))
        with (mb_Linked (m_Buffer (grown (length buffer) s))).
      rewrite grown_linked. exact Ho. }
    split; [ reflexivity | ].
    rewrite put_prefix by exact Hg. f_equal. now apply grown_prefix.
Qed.

Lemma vformat_owned size_t_modulus txt s :
  in_size_t size_t_modulus (pos s + length txt) ->
  wf s -> owned s ->
  exists s',
    vformat size_t_modulus txt s = Ok (length txt) s' /\
    wf s' /\ owned s' /\
    pos s' = pos s + length txt /\
    firstn (pos s') (mb_Data (m_Buffer s')) =
      firstn (pos s) (mb_Data (m_Buffer s)) ++ txt /\
    nth_error (mb_Data (m_Buffer s')) (pos s') = Some zero.
Proof.
  intros Hm Hwf Ho.
  assert (Whole : forall x,
    wf x -> owned x -> length txt < remaining x ->
    let s' := advanced (length txt) (poked (txt ++ [zero]) x) in
    wf s' /\ owned s' /\ pos s' = pos x + length txt /\
    firstn (pos s') (mb_Data (m_Buffer s')) =
      firstn (pos x) (mb_Data (m_Buffer x)) ++ txt /\
    nth_error (mb_Data (m_Buffer s')) (pos s') = Some zero).
  { intros x Hx Hox Hr s'.
    assert (Hpk : wf (poked (txt ++ [zero]) x)).
    { apply poked_wf; [ exact Hx | ]. rewrite length_app. cbn [length]. lia. }
    destruct Hx as (Hp & Hv & Hc). destruct Hpk as (Hp' & Hv' & Hc').
    revert Hr. unfold s', pos, remaining, Mostream.remaining, Mostream.size,
      Mostream.pos, wf, owned in *.
    cbn [to_ostream advanced poked set_buffer m_Buffer mb_Data mb_Size
         mb_Linked v_Pos v_Size Mostream.m_Size Mostream.m_Pos] in *.
    intros Hr.
    split; [ repeat split; lia | ]. split; [ exact Hox | ].
    split; [ reflexivity | ]. split.
    - rewrite store_prefix_part;
        [ | lia | rewrite length_app; cbn [length]; lia ].
      f_equal. rewrite firstn_app, Nat.sub_diag, firstn_all. cbn [firstn].
      apply app_nil_r.
    - rewrite store_nth_error;
        [ | lia | rewrite length_app; cbn [length]; lia ].
      rewrite nth_error_app2 by lia. now rewrite Nat.sub_diag. }
  rewrite vformat_eq by assumption. cbv zeta.
  set (s1 := poked (fst (snprintf (remaining s) txt)) s).
  assert (Hwf1 : wf s1).
  { apply poked_wf; [ exact Hwf | apply snprintf_length ]. }
  assert (Ho1 : owned s1) by exact Ho.
  destruct (remaining s <=? length txt) eqn:Hr; leb_props.
  - set (g := grown (length txt + 1) s1).
    destruct (grown_owned (length txt + 1) s1 Ho1 Hwf1)
      as (G1 & G2 & G3 & G4).
    fold g in G1, G2, G3, G4. rewrite G4, Nat.ltb_irrefl.
    eexists. split; [ reflexivity | ].
    assert (Hg : wf g).
    { apply grown_wf; [ exact Hwf1 | | now apply grown_view_ge ].
      change (remaining s1) with (remaining s). lia. }
    assert (Hog : owned g).
    { unfold owned, g. now rewrite grown_linked. }
    destruct (Whole g Hg Hog) as (W1 & W2 & W3 & W4 & W5); [ lia | ].
    split; [ exact W1 | ]. split; [ exact W2 | ].
    split; [ exact W3 | ]. split; [ | exact W5 ].
    rewrite W4. f_equal.
    unfold g. rewrite grown_prefix by exact Hwf1.
    destruct Hwf as (Hp & Hv & Hc).
    change (pos s1) with (v_Pos s). change (pos s) with (v_Pos s).
    unfold s1, poked. cbn [set_buffer m_Buffer mb_Data].
    apply store_firstn; lia.
  - eexists. split; [ reflexivity | ].
    unfold s1. rewrite snprintf_fits by exact Hr.
    apply (Whole s Hwf Ho Hr).
Qed.

Lemma resize_owned n b :
  mb_Linked b = false ->
  mb_Size (resize n b) = n /\
  n <= length (mb_Data (resize n b)) /\
  mb_Linked (resize n b) = false.
Proof.
  intros Hl.
  destruct (Nat.le_gt_cases n (length (mb_Data b))) as [H | H].
  - rewrite resize_within by exact H. cbn. auto.
  - rewrite resize_owned_beyond by assumption. cbn.
    rewrite length_app, repeat_length. repeat split; lia.
Qed.

Lemma str_owned v s :
  owned s ->
  exists s',
    str v s = Ok tt s' /\
    wf s' /\ owned s' /\
    pos s' = length v /\
    remaining s' = 0 /\
    content (m_Buffer s') = v.
Proof.
  intros Ho.
  destruct (resize_owned (length v) (m_Buffer s) Ho) as (R1 & R2 & R3).
  unfold str, link_m_Buffer, seek, base, lift, Mostream.link, Mostream.seek.
  unfold bind, modify, get, assert.
  cbn [to_ostream of_ostream set_buffer m_Buffer v_Size v_Pos mb_Data
       mb_Size mb_Linked Mostream.m_Data Mostream.m_Size Mostream.m_Pos
       Mostream.size Mostream.set_pos assign].
  rewrite Nat.leb_refl.
  eexists. split; [ reflexivity | ].
  unfold wf, owned, pos, remaining, Mostream.remaining, Mostream.size,
    Mostream.pos, content.
  cbn [to_ostream of_ostream set_buffer assign m_Buffer v_Size v_Pos mb_Data
       mb_Size mb_Linked Mostream.m_Data Mostream.m_Size Mostream.m_Pos
       Mostream.set_pos].
  rewrite ?R1, ?firstn_all.
  assert (L : length (store (mb_Data (resize (length v) (m_Buffer s))) 0 v)
              = length (mb_Data (resize (length v) (m_Buffer s))))
    by (apply store_length; cbn; lia).
  split; [ rewrite L; repeat split; lia | ].
  split; [ exact R3 | ]. split; [ reflexivity | ].
  split; [ lia | ].
  pose proof (store_prefix (mb_Data (resize (length v) (m_Buffer s))) 0 v)
    as P.
  cbn [Nat.add firstn app] in P. apply P. lia.
Qed.

Lemma write_buffer_fits buf s :
  wf s -> length buf <= remaining s ->
  write_buffer buf s = Ok tt (put buf s).
Proof.
  intros Hwf Hr. unfold write_buffer.
  destruct buf as [ | c buf].
  - cbn. unfold ret. now rewrite put_nil.
  - cbn [write_buffer_loop Nat.add].
    set (b := c :: buf) in *.
    replace (0 <? length b) with true
      by (symmetry; apply Nat.ltb_lt; unfold b; cbn [length]; lia).
    unfold bind at 1, get at 1. unfold bind at 1.
    replace (remaining s =? 0) with false
      by (symmetry; apply Nat.eqb_neq; unfold b in Hr; cbn [length] in Hr;
          lia).
    cbn [negb]. unfold ret, bind at 1, get at 1.
    rewrite Nat.sub_0_r.
    replace (Nat.min (remaining s) (length b)) with (length b) by lia.
    assert (E : load b 0 (length b) = b) by (unfold load; apply firstn_all).
    rewrite E. unfold bind.
    rewrite write_fit; [ | apply Hwf | exact Hr ].
    unfold b at 1. cbn [length write_buffer_loop Nat.add].
    fold b.
    replace (length b <? length b) with false
      by (symmetry; apply Nat.ltb_irrefl).
    reflexivity.
Qed.

(** X5: on an owned buffer with the view in place, a run of [write] calls
    returns whatever the sizes are; the position has advanced by the total
    number of bytes and the bytes before it are the former ones followed by
    the chunks in their order. *)
Theorem write_each_appends_the_chunks
  (chunks : list (list char)) (s : ostringstream) :
  wf s -> owned s ->
  exists s',
    write_each chunks s = Ok tt s' /\
    wf s' /\ owned s' /\
    pos s' = pos s + length (concat chunks) /\
    firstn (pos s') (mb_Data (m_Buffer s')) =
      firstn (pos s) (mb_Data (m_Buffer s)) ++ concat chunks.
Proof.
  revert s. induction chunks as [ | c rest IH]; intros s Hwf Ho.
  - exists s. cbn [write_each concat length]. unfold ret.
    rewrite Nat.add_0_r, app_nil_r. auto.
  - destruct (write_owned c s Hwf Ho) as (s1 & E1 & W1 & O1 & P1 & D1).
    destruct (IH s1 W1 O1) as (s' & E & W & O & P & D).
    exists s'. cbn [write_each concat]. unfold bind. rewrite E1.
    split; [ exact E | ]. split; [ exact W | ]. split; [ exact O | ].
    rewrite D, D1, <- app_assoc, length_app, P, P1.
    split; [ lia | reflexivity ].
Qed.

Lemma write_each_appends_the_chunks_witness :
  let s := stream_over_string (text "ab") in
  exists s',
    write_each [text "hello"; []; text ", "; text "world"] s = Ok tt s' /\
    wf s' /\ owned s' /\
    pos s' = 12 /\
    firstn (pos s') (mb_Data (m_Buffer s')) = text "hello, world".
Proof.
  intros s.
  apply (write_each_appends_the_chunks
           [text "hello"; []; text ", "; text "world"] s).
  - unfold wf. cbn. lia.
  - reflexivity.
Defined.

(** X6: when the bytes fit in remaining (), [write_buffer] is one plain
    copy: it returns with the bytes at the old position and the position
    past them, and the buffer is neither resized nor relinked; this holds
    over external memory as well, and an empty [buf] changes nothing. *)
Theorem write_buffer_that_fits_only_copies
  (buf : list char) (s : ostringstream) :
  wf s -> length buf <= remaining s ->
  write_buffer buf s = Ok tt (put buf s) /\
  mb_Size (m_Buffer (put buf s)) = mb_Size (m_Buffer s) /\
  length (mb_Data (m_Buffer (put buf s))) = length (mb_Data (m_Buffer s)) /\
  load (mb_Data (m_Buffer (put buf s))) (pos s) (length buf) = buf /\
  (buf = [] -> put buf s = s).
Proof.
  intros Hwf Hr.
  split; [ now apply write_buffer_fits | ].
  split; [ reflexivity | ].
  destruct Hwf as (Hp & Hv & Hc).
  revert Hr. unfold put, advanced, poked, pos, remaining,
    Mostream.remaining, Mostream.size, Mostream.pos.
  cbn [to_ostream set_buffer m_Buffer mb_Data Mostream.m_Size
       Mostream.m_Pos].
  intros Hr.
  split; [ apply store_length; lia | ].
  split; [ apply load_store; lia | ].
  intros ->. apply put_nil.
Qed.

Lemma write_buffer_that_fits_only_copies_witness :
  let s := stream_over_memory (text "abcd") in
  write_buffer (text "hi") s = Ok tt (put (text "hi") s) /\
  mb_Size (m_Buffer (put (text "hi") s)) = mb_Size (m_Buffer s) /\
  length (mb_Data (m_Buffer (put (text "hi") s))) =
    length (mb_Data (m_Buffer s)) /\
  load (mb_Data (m_Buffer (put (text "hi") s))) (pos s) 2 = text "hi" /\
  (text "hi" = [] -> put (text "hi") s = s).
Proof.
  intros s.
  apply (write_buffer_that_fits_only_copies (text "hi") s).
  - unfold wf. cbn. lia.
  - vm_compute. lia.
Defined.

(** X7: [str] on an owned buffer returns with the buffer holding exactly
    the string, whatever it held, and with the position at its end, so that
    what [write_buffer] writes next comes after the string. *)
Theorem str_replaces_content_and_appends_after
  (v w : list char) (s : ostringstream) :
  owned s ->
  exists s',
    str v s = Ok tt s' /\
    content (m_Buffer s') = v /\
    pos s' = length v /\
    exists s'',
      write_buffer w s' = Ok tt s'' /\
      pos s'' = length v + length w /\
      firstn (pos s'') (mb_Data (m_Buffer s'')) = v ++ w.
Proof.
  intros Ho.
  destruct (str_owned v s Ho) as (s' & E & W & O & P & R & C).
  exists s'. split; [ exact E | ]. split; [ exact C | ].
  split; [ exact P | ].
  destruct (write_buffer_owned w s' W O) as (s'' & E2 & _ & _ & P2 & D2).
  exists s''. split; [ exact E2 | ]. rewrite P in P2.
  split; [ exact P2 | ].
  rewrite D2. f_equal.
  assert (Hs : mb_Size (m_Buffer s') = length v).
  { assert (Hl : length (content (m_Buffer s')) = length v) by now rewrite C.
    destruct W as (_ & _ & Hc).
    unfold content in Hl. rewrite length_firstn in Hl. lia. }
  rewrite P, <- Hs. exact C.
Qed.

Lemma str_replaces_content_and_appends_after_witness :
  let s := advanced 3 (stream_over_string (text "zzzzz")) in
  exists s',
    str (text "ab") s = Ok tt s' /\
    content (m_Buffer s') = text "ab" /\
    pos s' = 2 /\
    exists s'',
      write_buffer (text "cd") s' = Ok tt s'' /\
      pos s'' = 2 + 2 /\
      firstn (pos s'') (mb_Data (m_Buffer s'')) = text "ab" ++ text "cd".
Proof.
  intros s.
  apply (str_replaces_content_and_appends_after (text "ab") (text "cd") s).
  reflexivity.
Defined.

(** X8: what has been written is what the buffer holds after [flush]: on
    an owned buffer with the view in place, [write_buffer] followed by
    [flush] returns with the content of the buffer being the bytes that
    were before the position followed by the bytes written, nothing
    after. *)
Theorem write_buffer_then_flush_holds_the_text
  (buf : list char) (s : ostringstream) :
  wf s -> owned s ->
  exists s',
    (write_buffer buf ;; flush) s = Ok tt s' /\
    content (m_Buffer s') = firstn (pos s) (mb_Data (m_Buffer s)) ++ buf /\
    mb_Size (m_Buffer s') = pos s + length buf /\
    pos s' = pos s + length buf.
Proof.
  intros Hwf Ho.
  destruct (write_buffer_owned buf s Hwf Ho)
    as (s1 & E & (Hp & Hv & Hc) & _ & P & D).
  assert (Hcap : pos s1 <= length (mb_Data (m_Buffer s1)))
    by (change (pos s1) with (v_Pos s1); lia).
  exists (set_buffer s1 (resize (pos s1) (m_Buffer s1))).
  unfold bind. rewrite E, flush_eq.
  split; [ reflexivity | ].
  cbn [set_buffer m_Buffer].
  rewrite resize_within by exact Hcap.
  unfold content. cbn [mb_Data mb_Size].
  split; [ exact D | ]. split; exact P.
Qed.

Lemma write_buffer_then_flush_holds_the_text_witness :
  let s := stream_over_string (text "abcdef") in
  exists s',
    (write_buffer (text "XY") ;; flush) s = Ok tt s' /\
    content (m_Buffer s') = text "XY" /\
    mb_Size (m_Buffer s') = 2 /\
    pos s' = 2.
Proof.
  intros s.
  apply (write_buffer_then_flush_holds_the_text (text "XY") s).
  - unfold wf. cbn. lia.
  - reflexivity.
Defined.

(** X9: a run of [format] calls on an owned buffer with the view in place
    returns whatever the size of the buffer is, the position reached being
    a value of [size_t]; the texts lie one after the other before the
    position, the terminator of each being overwritten by the next, and
    after a run that is not empty the byte at the position is the
    terminator of the last text. *)
Theorem format_each_concatenates_the_texts
  (size_t_modulus : N) (txts : list (list char)) (s : ostringstream) :
  in_size_t size_t_modulus (pos s + length (concat txts)) ->
  wf s -> owned s ->
  exists s',
    format_each size_t_modulus txts s = Ok tt s' /\
    wf s' /\ owned s' /\
    pos s' = pos s + length (concat txts) /\
    firstn (pos s') (mb_Data (m_Buffer s')) =
      firstn (pos s) (mb_Data (m_Buffer s)) ++ concat txts /\
    (txts <> [] ->
     nth_error (mb_Data (m_Buffer s')) (pos s') = Some zero).
Proof.
  revert s. induction txts as [ | t rest IH]; intros s Hm Hwf Ho.
  - exists s. cbn [format_each concat length]. unfold ret.
    rewrite Nat.add_0_r, app_nil_r.
    repeat (split; [ solve [ auto ] | ]). intros H. now contradiction H.
  - cbn [concat] in Hm. rewrite length_app in Hm.
    assert (Ht : in_size_t size_t_modulus (pos s + length t)).
    { eapply in_size_t_le; [ | exact Hm ]. lia. }
    destruct (vformat_owned size_t_modulus t s Ht Hwf Ho)
      as (s1 & E1 & W1 & O1 & P1 & D1 & Z1).
    assert (Hr : in_size_t size_t_modulus (pos s1 + length (concat rest))).
    { rewrite P1. eapply in_size_t_le; [ | exact Hm ]. lia. }
    destruct (IH s1 Hr W1 O1) as (s' & E & W & O & P & D & Z).
    exists s'. cbn [format_each concat]. unfold format, bind. rewrite E1.
    split; [ exact E | ]. split; [ exact W | ]. split; [ exact O | ].
    split; [ rewrite length_app, P, P1; lia | ].
    split; [ rewrite D, D1, <- app_assoc; reflexivity | ].
    intros _. destruct rest as [ | t' rest'].
    + cbn [format_each] in E. unfold ret in E. injection E as <-.
      exact Z1.
    + apply Z. discriminate.
Qed.

Lemma format_each_concatenates_the_texts_witness :
  let s := stream_over_string [] in
  exists s',
    format_each (2 ^ 64) [text "x = "; text "42"; text "!"] s =
      Ok tt s' /\
    wf s' /\ owned s' /\
    pos s' = 7 /\
    firstn (pos s') (mb_Data (m_Buffer s')) = text "x = 42!" /\
    ([text "x = "; text "42"; text "!"] <> [] ->
     nth_error (mb_Data (m_Buffer s')) (pos s') = Some zero).
Proof.
  intros s.
  apply (format_each_concatenates_the_texts (2 ^ 64)
           [text "x = "; text "42"; text "!"] s).
  - reflexivity.
  - unfold wf. cbn. lia.
  - reflexivity.
Defined.

(** X10: when [overflow (n)] returns, the position is the one before the
    call, the block is the former block with bytes added at its end at
    most, the value returned is remaining () and is at least [n]; and the
    same request made again returns the same value and changes nothing. *)
Theorem overflow_that_returns_is_settled
  (n r : nat) (s s' : ostringstream) :
  overflow n s = Ok r s' ->
  pos s' = pos s /\
  (exists tail, mb_Data (m_Buffer s') = mb_Data (m_Buffer s) ++ tail) /\
  r = remaining s' /\
  n <= r /\
  overflow n s' = Ok r s'.
Proof.
  intros E. apply overflow_ok_inv in E as (-> & Hn & [-> | ->]).
  - split; [ reflexivity | ].
    split; [ exists []; now rewrite app_nil_r | ].
    split; [ reflexivity | ]. split; [ exact Hn | ].
    now apply overflow_fit.
  - split; [ reflexivity | ].
    split; [ apply grown_data | ].
    split; [ reflexivity | ]. split; [ exact Hn | ].
    now apply overflow_fit.
Qed.

Lemma overflow_that_returns_is_settled_witness :
  let s := put (text "ab") (stream_over_string (text "ab")) in
  let s' := grown 5 s in
  overflow 5 s = Ok 5 s' /\
  pos s' = pos s /\
  (exists tail, mb_Data (m_Buffer s') = mb_Data (m_Buffer s) ++ tail) /\
  5 = remaining s' /\
  5 <= 5 /\
  overflow 5 s' = Ok 5 s'.
Proof.
  intros s s'.
  assert (E : overflow 5 s = Ok 5 s') by reflexivity.
  split; [ exact E | ].
  apply (overflow_that_returns_is_settled 5 5 s s' E).
Defined.

Lemma base_iwrite_char size_t_modulus c_DefaultAlignment v s :
  in_size_t size_t_modulus (v_Pos s + 1) ->
  1 <= c_DefaultAlignment -> v_Pos s <= v_Size s -> 1 <= remaining s ->
  base (Mostream.iwrite size_t_modulus c_DefaultAlignment [v]) s =
  Ok tt (put [v] s).
Proof.
  intros Hm Hda Hp Hr. unfold base, lift.
  rewrite iwrite_ok.
  - destruct s as [[d sz lk] vs vp fl ba pr wi ds ts]. reflexivity.
  - exact Hm.
  - exact Hp.
  - cbn [length].
    replace (Nat.min 1 c_DefaultAlignment) with 1 by lia.
    unfold Mostream.aligned. now rewrite Nat.mod_1_r.
  - exact Hr.
Qed.

(** X11: with a default alignment and a default request of [overflow] of
    at least one, the single-character [iwrite] on an owned buffer with the
    view in place always returns, with the character stored at the old
    position, the bytes before it untouched and the position one
    further, a value of [size_t]. *)
Theorem iwrite_uint8_appends_the_character
  (size_t_modulus : N) (overflow_default c_DefaultAlignment : nat)
  (v : char) (s : ostringstream) :
  in_size_t size_t_modulus (pos s + 1) ->
  1 <= overflow_default -> 1 <= c_DefaultAlignment ->
  wf s -> owned s ->
  exists s',
    iwrite_uint8 size_t_modulus overflow_default c_DefaultAlignment v s =
      Ok tt s' /\
    wf s' /\ owned s' /\
    pos s' = pos s + 1 /\
    firstn (pos s') (mb_Data (m_Buffer s')) =
      firstn (pos s) (mb_Data (m_Buffer s)) ++ [v].
Proof.
  intros Hm Hd Hda Hwf Ho.
  unfold iwrite_uint8, bind at 1, get at 1. unfold bind at 1.
  destruct (1 <=? remaining s) eqn:Hr; leb_props.
  - unfold ret. exists (put [v] s).
    split; [ apply base_iwrite_char;
             [ exact Hm | exact Hda | apply Hwf | exact Hr ] | ].
    split; [ apply put_wf; [ exact Hwf | exact Hr ] | ].
    split; [ exact Ho | ].
    split; [ reflexivity | now apply put_prefix ].
  - destruct (grown_owned overflow_default s Ho Hwf) as (G1 & G2 & G3 & G4).
    assert (Hg : wf (grown overflow_default s)).
    { apply grown_wf; [ exact Hwf | lia | now apply grown_view_ge ]. }
    unfold bind at 1.
    rewrite overflow_wf by (try exact Hwf; lia).
    rewrite G4, Nat.ltb_irrefl. unfold ret.
    replace (1 <=? overflow_default) with true
      by (symmetry; now apply Nat.leb_le).
    exists (put [v] (grown overflow_default s)).
    split; [ apply base_iwrite_char;
             [ exact Hm | exact Hda | apply Hg | lia ] | ].
    split; [ apply put_wf; [ exact Hg | cbn [length]; lia ] | ].
    split.
    { unfold owned.
      change (mb_Linked (m_Buffer (put [v] (grown overflow_default s))))
        with (mb_Linked (m_Buffer (grown overflow_default s))).
      rewrite grown_linked. exact Ho. }
    split; [ reflexivity | ].
    rewrite put_prefix by exact Hg. f_equal. now apply grown_prefix.
Qed.

Lemma iwrite_uint8_appends_the_character_witness :
  let s := put (text "ab") (stream_over_string (text "ab")) in
  exists s',
    iwrite_uint8 (2 ^ 64) 1 4 "c"%char s = Ok tt s' /\
    wf s' /\ owned s' /\
    pos s' = pos s + 1 /\
    firstn (pos s') (mb_Data (m_Buffer s')) =
      firstn (pos s) (mb_Data (m_Buffer s)) ++ ["c"%char].
Proof.
  intros s.
  apply (iwrite_uint8_appends_the_character (2 ^ 64) 1 4 "c"%char s).
  - reflexivity.
  - lia.
  - lia.
  - unfold wf. cbn. lia.
  - reflexivity.
Defined.

(** ** The text stream: formatting state *)

Lemma justify_bits (f a b : N) :
  N.land a b = 0%N ->
  N.land (N.ldiff (N.lor f a) b) a = a /\
  N.land (N.ldiff (N.lor f a) b) b = 0%N.
Proof.
  intros H. split; [ | apply N.land_ldiff ].
  apply N.bits_inj. intros i.
  rewrite N.land_spec, N.ldiff_spec, N.lor_spec.
  assert (Hi : N.testbit (N.land a b) i = false)
    by (rewrite H; apply N.bits_0).
  rewrite N.land_spec in Hi.
  destruct (N.testbit f i), (N.testbit a i), (N.testbit b i);
    try reflexivity; discriminate.
Qed.

(** X12: the manipulators [left] and [right] exclude each other.  With
    enumerators that are distinct and two masks that share no bit, writing
    [left] returns with the bits of [left] set and those of [right] clear,
    writing [right] with the bits of [right] set and those of [left] clear;
    neither touches the buffer, the position, the base, the width or the
    precision. *)
Theorem justification_flags_exclude_each_other
  (oct dec hex left right : N) (s : ostringstream) :
  left <> oct -> left <> dec -> left <> hex ->
  right <> oct -> right <> dec -> right <> hex -> right <> left ->
  N.land left right = 0%N ->
  (exists f,
     iwrite_fmtflags oct dec hex left right left s = Ok tt (set_flags s f) /\
     N.land f left = left /\ N.land f right = 0%N) /\
  (exists f,
     iwrite_fmtflags oct dec hex left right right s = Ok tt (set_flags s f) /\
     N.land f right = right /\ N.land f left = 0%N).
Proof.
  intros L1 L2 L3 R1 R2 R3 R4 H.
  unfold iwrite_fmtflags.
  apply N.eqb_neq in L1, L2, L3, R1, R2, R3, R4.
  rewrite L1, L2, L3, R1, R2, R3, R4, !N.eqb_refl.
  split.
  - exists (N.ldiff (N.lor (m_Flags s) left) right).
    split; [ reflexivity | now apply justify_bits ].
  - exists (N.ldiff (N.lor (m_Flags s) right) left).
    split; [ reflexivity | ].
    apply justify_bits. now rewrite N.land_comm.
Qed.

Lemma justification_flags_exclude_each_other_witness :
  let s := set_flags (stream_over_string (text "ab")) 128 in
  (exists f,
     iwrite_fmtflags 64 2 8 32 128 32 s = Ok tt (set_flags s f) /\
     N.land f 32 = 32%N /\ N.land f 128 = 0%N) /\
  (exists f,
     iwrite_fmtflags 64 2 8 32 128 128 s = Ok tt (set_flags s f) /\
     N.land f 128 = 128%N /\ N.land f 32 = 0%N).
Proof.
  intros s.
  apply (justification_flags_exclude_each_other 64 2 8 32 128 s);
    try discriminate; reflexivity.
Defined.

Lemma set_last_length (fmt : list char) c :
  fmt <> [] -> length (set_last fmt c) = length fmt.
Proof.
  intros H. unfold set_last.
  rewrite length_app, removelast_firstn_len, length_firstn.
  destruct fmt as [ | x fmt]; [ contradiction | ]. cbn [length]. lia.
Qed.

Lemma set_last_last (fmt : list char) c d : last (set_last fmt c) d = c.
Proof. unfold set_last. apply last_last. Qed.

(** X13: the base manipulators decide the last letter of every integer
    format.  With distinct enumerators, [hex], [oct] and [dec] return with
    the base 16, 8 and 10 and nothing else changed; the integer format
    string then is the one of base 10, which ends with the type letters,
    with its last character replaced by X after [hex] and by o after [oct];
    the format string of a non-integer type is not affected. *)
Theorem base_manipulators_set_the_conversion_letter
  (oct dec hex left right scientific : N) (typestr : list char)
  (s : ostringstream) :
  dec <> oct -> hex <> oct -> hex <> dec ->
  exists s8 s10 s16,
    iwrite_fmtflags oct dec hex left right oct s = Ok tt s8 /\
    iwrite_fmtflags oct dec hex left right dec s = Ok tt s10 /\
    iwrite_fmtflags oct dec hex left right hex s = Ok tt s16 /\
    (m_Base s8 = 8 /\ m_Base s10 = 10 /\ m_Base s16 = 16)%N /\
    (exists prefix,
       fmtstring left scientific typestr true s10 = prefix ++ typestr) /\
    fmtstring left scientific typestr true s16 =
      set_last (fmtstring left scientific typestr true s10) "X"%char /\
    fmtstring left scientific typestr true s8 =
      set_last (fmtstring left scientific typestr true s10) "o"%char /\
    fmtstring left scientific typestr false s16 =
      fmtstring left scientific typestr false s /\
    fmtstring left scientific typestr false s8 =
      fmtstring left scientific typestr false s.
Proof.
  intros H1 H2 H3.
  unfold iwrite_fmtflags.
  apply N.eqb_neq in H1, H2, H3.
  rewrite H1, H2, H3, !N.eqb_refl.
  unfold set_base, modify.
  do 3 eexists.
  split; [ reflexivity | ]. split; [ reflexivity | ].
  split; [ reflexivity | ].
  split; [ cbn; auto | ].
  unfold fmtstring.
  cbn [m_Base m_Width m_Flags m_Precision N.eqb Pos.eqb negb].
  split; [ eexists; reflexivity | ].
  repeat split.
Qed.

Lemma base_manipulators_set_the_conversion_letter_witness :
  let s := stream_over_string [] in
  exists s8 s10 s16,
    iwrite_fmtflags 64 2 8 32 128 64 s = Ok tt s8 /\
    iwrite_fmtflags 64 2 8 32 128 2 s = Ok tt s10 /\
    iwrite_fmtflags 64 2 8 32 128 8 s = Ok tt s16 /\
    (m_Base s8 = 8 /\ m_Base s10 = 10 /\ m_Base s16 = 16)%N /\
    (exists prefix, fmtstring 32 256 (text "lu") true s10 =
                    prefix ++ text "lu") /\
    fmtstring 32 256 (text "lu") true s16 =
      set_last (fmtstring 32 256 (text "lu") true s10) "X"%char /\
    fmtstring 32 256 (text "lu") true s8 =
      set_last (fmtstring 32 256 (text "lu") true s10) "o"%char /\
    fmtstring 32 256 (text "lu") false s16 =
      fmtstring 32 256 (text "lu") false s /\
    fmtstring 32 256 (text "lu") false s8 =
      fmtstring 32 256 (text "lu") false s.
Proof.
  intros s.
  apply (base_manipulators_set_the_conversion_letter
           64 2 8 32 128 256 (text "lu") s); discriminate.
Defined.

Lemma encode_dec_loop_S fuel n :
  encode_dec_loop (S fuel) n =
  ascii_of_N (N_of_ascii "0" + n mod 10)
  :: (if (n / 10 =? 0)%N then [] else encode_dec_loop fuel (n / 10)%N).
Proof. reflexivity. Qed.

Lemma encode_dec_loop_digits fuel : forall n,
  (n < 2 ^ N.of_nat fuel)%N ->
  fold_right (fun c acc => (10 * acc + digit_value c)%N) 0%N
    (encode_dec_loop (S fuel) n) = n /\
  Forall is_digit (encode_dec_loop (S fuel) n).
Proof.
  assert (D : forall n, digit_value (ascii_of_N (N_of_ascii "0" + n mod 10))
                        = (n mod 10)%N /\
                        is_digit (ascii_of_N (N_of_ascii "0" + n mod 10))).
  { intros n.
    assert (B : (n mod 10 < 10)%N) by (apply N.mod_upper_bound; discriminate).
    unfold digit_value, is_digit.
    change (N_of_ascii "0") with 48%N. change (N_of_ascii "9") with 57%N.
    generalize dependent (n mod 10)%N. intros m B.
    rewrite N_ascii_embedding by lia. lia. }
  induction fuel as [ | fuel IH]; intros n Hn.
  - cbn in Hn. assert (n = 0%N) by lia. subst n.
    split; [ reflexivity | ].
    cbn [encode_dec_loop]. constructor; [ apply (D 0%N) | constructor ].
  - rewrite (encode_dec_loop_S (S fuel) n).
    destruct (D n) as [Dv Dd].
    pose proof (N.div_mod' n 10) as E.
    destruct (n / 10 =? 0)%N eqn:Z.
    + apply N.eqb_eq in Z. cbn [fold_right]. rewrite Dv.
      split; [ lia | constructor; [ exact Dd | constructor ] ].
    + destruct (IH (n / 10)%N) as [V F].
      { rewrite Nat2N.inj_succ, N.pow_succ_r' in Hn.
        apply N.Div0.div_lt_upper_bound. lia. }
      cbn [fold_right]. rewrite V, Dv.
      split; [ lia | constructor; assumption ].
Qed.

(** X14: the characters [encode_dec] appends are decimal digits, one at
    least, and they are the decimal numeral of [n] written backwards: read
    from the last one to the first one they give [n]. *)
Theorem encode_dec_appends_the_numeral_backwards (fmt : list char) (n : N) :
  exists digits,
    encode_dec fmt n = fmt ++ digits /\
    digits <> [] /\
    Forall is_digit digits /\
    numeral_value (rev digits) = n.
Proof.
  exists (encode_dec_loop (S (N.to_nat (N.size n))) n).
  split; [ reflexivity | ].
  split; [ cbn [encode_dec_loop]; discriminate | ].
  destruct (encode_dec_loop_digits (N.to_nat (N.size n)) n) as [V F].
  { rewrite N2Nat.id. apply N.size_gt. }
  split; [ exact F | ].
  unfold numeral_value.
  rewrite <- (fold_left_rev_right
                (fun c acc => (10 * acc + digit_value c)%N)).
  now rewrite rev_involutive.
Qed.

Lemma encode_dec_loop_length k : forall fuel n,
  (n < 10 ^ N.of_nat (S k))%N -> length (encode_dec_loop fuel n) <= S k.
Proof.
  induction k as [ | k IH]; intros fuel n Hn.
  - destruct fuel as [ | fuel]; cbn [encode_dec_loop length]; [ lia | ].
    replace (n / 10 =? 0)%N with true; [ cbn; lia | ].
    symmetry. apply N.eqb_eq. apply N.div_small. cbn in Hn. lia.
  - destruct fuel as [ | fuel]; cbn [encode_dec_loop length]; [ lia | ].
    destruct (n / 10 =? 0)%N; [ cbn; lia | ].
    apply le_n_S. apply IH.
    rewrite (Nat2N.inj_succ (S k)), N.pow_succ_r' in Hn.
    apply N.Div0.div_lt_upper_bound. exact Hn.
Qed.

(** X15: the format string fits the array of [sprintf_iwrite].  With a
    width and a precision of five decimal digits at most, and type letters
    no longer than those of the overloads of [iwrite] (up to three letters
    for an integer type, two for the others), the string [fmtstring]
    builds and its terminator take c_FmtStrSize = 16 bytes at most. *)
Theorem fmtstring_fits_its_array
  (left scientific : N) (typestr : list char) (bInteger : bool)
  (s : ostringstream) :
  (m_Width s < 10 ^ 5)%N -> (m_Precision s < 10 ^ 5)%N ->
  length typestr <= (if bInteger then 3 else 2) ->
  length (fmtstring left scientific typestr bInteger s) + 1 <= c_FmtStrSize.
Proof.
  intros Hw Hp Ht.
  pose proof (encode_dec_loop_length 4 (S (N.to_nat (N.size (m_Width s))))
                (m_Width s) Hw) as Lw.
  pose proof (encode_dec_loop_length 4
                (S (N.to_nat (N.size (m_Precision s))))
                (m_Precision s) Hp) as Lp.
  unfold fmtstring, encode_dec, c_FmtStrSize.
  destruct (m_Width s =? 0)%N, (N.land (m_Flags s) left =? 0)%N,
    (N.land (m_Flags s) scientific =? 0)%N, (m_Base s =? 16)%N,
    (m_Base s =? 8)%N, bInteger;
    cbn [negb app];
    repeat rewrite <- app_assoc; cbn [app];
    rewrite ?set_last_length by discriminate;
    cbn [length];
    repeat (rewrite length_app; cbn [length]); lia.
Qed.

(** A double with width 10000, precision 10000 and left justification:
    fifteen characters and the terminator. *)
Lemma fmtstring_fits_its_array_witness :
  let s := mk_ostringstream (memblock_of_string []) 0 0 32 10 10000 10000
             "."%char ","%char in
  length (fmtstring 32 256 (text "lf") false s) + 1 <= c_FmtStrSize /\
  length (fmtstring 32 256 (text "lf") false s) = 15.
Proof.
  intros s. split.
  - apply (fmtstring_fits_its_array 32 256 (text "lf") false s).
    + reflexivity.
    + reflexivity.
    + cbn. lia.
  - reflexivity.
Defined.

(** X16: [iwrite (bool)] on an owned buffer with the view in place returns
    with the name of the value appended, the four characters of true or the
    five of false, and with no terminator counted: the position advances by
    exactly the length of the name. *)
Theorem iwrite_bool_appends_the_name (v : bool) (s : ostringstream) :
  wf s -> owned s ->
  let name := if v then text "true" else text "false" in
  exists s',
    iwrite_bool v s = Ok tt s' /\
    pos s' = pos s + length name /\
    length name = (if v then 4 else 5) /\
    firstn (pos s') (mb_Data (m_Buffer s')) =
      firstn (pos s) (mb_Data (m_Buffer s)) ++ name.
Proof.
  intros Hwf Ho name.
  assert (E : iwrite_bool v s = write_buffer name s)
    by (destruct v; reflexivity).
  destruct (write_buffer_owned name s Hwf Ho) as (s' & Ew & _ & _ & P & D).
  exists s'. rewrite E.
  split; [ exact Ew | ]. split; [ exact P | ].
  split; [ destruct v; reflexivity | exact D ].
Qed.

Lemma iwrite_bool_appends_the_name_witness :
  let s := stream_over_string [] in
  exists s',
    iwrite_bool true s = Ok tt s' /\
    pos s' = pos s + length (text "true") /\
    length (text "true") = 4 /\
    firstn (pos s') (mb_Data (m_Buffer s')) =
      firstn (pos s) (mb_Data (m_Buffer s)) ++ text "true".
Proof.
  intros s.
  apply (iwrite_bool_appends_the_name true s).
  - unfold wf. cbn. lia.
  - reflexivity.
Defined.

(** What [write_buffer] leaves, whatever the buffer is: everything written,
    or a leading part written and the bounds failure for the rest. *)
Lemma write_buffer_loop_outcome fuel : forall buf btw written s,
  wf s ->
  written + btw <= length buf ->
  length buf - (written + btw) < fuel ->
  match write_buffer_loop fuel buf btw written s with
  | Ok _ s' =>
      wf s' /\
      pos s' = pos s + (length buf - (written + btw)) /\
      firstn (pos s') (mb_Data (m_Buffer s')) =
        firstn (pos s) (mb_Data (m_Buffer s)) ++ skipn (written + btw) buf
  | Throw e s' =>
      wf s' /\
      exists k,
        k < length buf - (written + btw) /\
        pos s' = pos s + k /\
        firstn (pos s') (mb_Data (m_Buffer s')) =
          firstn (pos s) (mb_Data (m_Buffer s)) ++
          load buf (written + btw) k /\
        e = stream_bounds_exception "write" "text" (pos s')
              (length buf - (written + btw) - k) (remaining s')
  | AssertFail => False
  | OutOfFuel => False
  end.
Proof.
  induction fuel as [ | fuel IH]; intros buf btw written s Hwf Hle Hf;
    [ lia | ].
  cbn [write_buffer_loop].
  destruct (written + btw <? length buf) eqn:Hw; leb_props.
  - set (w := written + btw) in *.
    assert (Step : forall s0,
      wf s0 -> 1 <= remaining s0 -> pos s0 = pos s ->
      firstn (pos s0) (mb_Data (m_Buffer s0)) =
        firstn (pos s) (mb_Data (m_Buffer s)) ->
      match
        (s1 <- get ;;
         write (load buf w (Nat.min (remaining s1) (length buf - w))) ;;
         write_buffer_loop fuel buf
           (Nat.min (remaining s1) (length buf - w)) w) s0
      with
      | Ok _ s' =>
          wf s' /\
          pos s' = pos s + (length buf - w) /\
          firstn (pos s') (mb_Data (m_Buffer s')) =
            firstn (pos s) (mb_Data (m_Buffer s)) ++ skipn w buf
      | Throw e s' =>
          wf s' /\
          exists k,
            k < length buf - w /\
            pos s' = pos s + k /\
            firstn (pos s') (mb_Data (m_Buffer s')) =
              firstn (pos s) (mb_Data (m_Buffer s)) ++ load buf w k /\
            e = stream_bounds_exception "write" "text" (pos s')
                  (length buf - w - k) (remaining s')
      | AssertFail => False
      | OutOfFuel => False
      end).
    { intros s0 Hwf0 Hr0 Hp0 Hd0. unfold bind, get.
      set (k0 := Nat.min (remaining s0) (length buf - w)).
      set (chunk := load buf w k0).
      assert (Lc : length chunk = k0) by (apply load_length; lia).
      rewrite write_fit; [ | apply Hwf0 | lia ].
      assert (Hput : wf (put chunk s0)) by (apply put_wf; [ exact Hwf0 | lia ]).
      assert (Ppos : pos (put chunk s0) = pos s + k0).
      { change (pos (put chunk s0)) with (v_Pos s0 + length chunk).
        change (pos s0) with (v_Pos s0) in Hp0. rewrite Hp0, Lc.
        reflexivity. }
      assert (Pd : firstn (pos (put chunk s0))
                     (mb_Data (m_Buffer (put chunk s0))) =
                   firstn (pos s) (mb_Data (m_Buffer s)) ++ chunk).
      { rewrite put_prefix by exact Hwf0. now rewrite Hd0. }
      pose proof (IH buf k0 w (put chunk s0) Hput) as R.
      destruct (write_buffer_loop fuel buf k0 w (put chunk s0))
        as [[] s' | e s' | | ].
      - destruct R as (W & P & D); [ lia | lia | ].
        split; [ exact W | ]. split; [ lia | ].
        rewrite D, Pd, <- app_assoc. f_equal. unfold chunk, load.
        replace (w + k0) with (k0 + w) by lia.
        rewrite <- (skipn_skipn k0 w buf). apply firstn_skipn.
      - destruct R as (W & k & Hk & P & D & ->); [ lia | lia | ].
        split; [ exact W | ]. exists (k0 + k).
        split; [ lia | ]. split; [ lia | ].
        split.
        + rewrite D, Pd, <- app_assoc. f_equal. apply load_app_two.
        + f_equal. lia.
      - apply R; lia.
      - apply R; lia. }
    unfold bind at 1, get at 1. unfold bind at 1.
    destruct (remaining s =? 0) eqn:Hr; cbn [negb].
    + apply Nat.eqb_eq in Hr. unfold bind at 1.
      rewrite overflow_wf by (try exact Hwf; lia).
      set (g := grown (length buf - w) s).
      assert (Hg : wf g).
      { apply grown_wf; [ exact Hwf | lia | now apply grown_view_ge ]. }
      destruct (remaining g <? length buf - w) eqn:Hgr; leb_props.
      * split; [ exact Hg | ]. exists 0.
        split; [ lia | ].
        split; [ change (pos g) with (pos s); now rewrite Nat.add_0_r | ].
        split.
        -- unfold g. rewrite grown_prefix by exact Hwf.
           unfold load. cbn [firstn]. now rewrite app_nil_r.
        -- now rewrite Nat.sub_0_r.
      * unfold ret.
        replace (remaining g =? 0) with false
          by (symmetry; apply Nat.eqb_neq; lia).
        cbn [negb]. apply Step.
        -- exact Hg.
        -- lia.
        -- reflexivity.
        -- unfold g. now apply grown_prefix.
    + apply Nat.eqb_neq in Hr. unfold ret.
      apply Step; try assumption; try reflexivity. lia.
  - unfold ret. split; [ exact Hwf | ]. split; [ lia | ].
    rewrite skipn_all2 by lia. now rewrite app_nil_r.
Qed.

(** X17: whatever the buffer is, owned or over external memory,
    [write_buffer] on a stream with the view in place never fails an
    assertion and never drops bytes: either it returns with all of [buf]
    appended and the position past it, or it raises the bounds failure of
    [overflow] after having appended the first [k] bytes of [buf], fewer
    than all, the failure naming the position reached, the number of bytes
    still to write and the room left. *)
Theorem write_buffer_writes_all_or_raises
  (buf : list char) (s : ostringstream) :
  wf s ->
  (exists s',
     write_buffer buf s = Ok tt s' /\
     wf s' /\
     pos s' = pos s + length buf /\
     firstn (pos s') (mb_Data (m_Buffer s')) =
       firstn (pos s) (mb_Data (m_Buffer s)) ++ buf) \/
  (exists s' k,
     write_buffer buf s =
       Throw (stream_bounds_exception "write" "text" (pos s')
                (length buf - k) (remaining s')) s' /\
     wf s' /\
     k < length buf /\
     pos s' = pos s + k /\
     firstn (pos s') (mb_Data (m_Buffer s')) =
       firstn (pos s) (mb_Data (m_Buffer s)) ++ firstn k buf).
Proof.
  intros Hwf.
  pose proof (write_buffer_loop_outcome (S (length buf)) buf 0 0 s Hwf) as R.
  cbn [Nat.add skipn] in R. rewrite Nat.sub_0_r in R.
  unfold write_buffer.
  destruct (write_buffer_loop (S (length buf)) buf 0 0 s)
    as [[] s' | e s' | | ].
  - left. exists s'. destruct R as (W & P & D); [ lia | lia | ]. auto.
  - right. destruct R as (W & k & Hk & P & D & ->); [ lia | lia | ].
    exists s', k. auto 6.
  - exfalso. apply R; lia.
  - exfalso. apply R; lia.
Qed.

(** Over four bytes of external memory, six bytes: four are written, then
    the failure for the two that are left. *)
Lemma write_buffer_writes_all_or_raises_witness :
  let s := stream_over_memory (text "....") in
  (exists s',
     write_buffer (text "abcdef") s = Ok tt s' /\
     wf s' /\
     pos s' = pos s + 6 /\
     firstn (pos s') (mb_Data (m_Buffer s')) =
       firstn (pos s) (mb_Data (m_Buffer s)) ++ text "abcdef") \/
  (exists s' k,
     write_buffer (text "abcdef") s =
       Throw (stream_bounds_exception "write" "text" (pos s')
                (6 - k) (remaining s')) s' /\
     wf s' /\
     k < 6 /\
     pos s' = pos s + k /\
     firstn (pos s') (mb_Data (m_Buffer s')) =
       firstn (pos s) (mb_Data (m_Buffer s)) ++ firstn k (text "abcdef")).
Proof.
  intros s.
  apply (write_buffer_writes_all_or_raises (text "abcdef") s).
  unfold wf. cbn. lia.
Defined.
